(** * Binary packet framing of [02_serial_communication.py]

    A shallow embedding of PATTERN 2 ([build_packet], [parse_packet]) and
    PATTERN 4 ([RxState], [PacketReceiver]) of
    [00_Interview_Ready/11_Python_Basics/02_serial_communication.py].

    Python integers are modelled as [Z]; a [bytearray] / [bytes] object is a
    [list Z] whose elements lie in [0, 256).  [bytearray.append] raises
    [ValueError] outside that range, so the stateful code lives in a small
    state-and-exception monad over the receiver object. *)

From Stdlib Require Import ZArith List Bool Lia.
From Stdlib Require String Ascii.
Import ListNotations.
Open Scope Z_scope.

(** ** Python built-ins used by the source *)

Definition SYNC : Z := 0xAA.

Definition in_range (b : Z) : bool := (0 <=? b) && (b <? 256).

Definition is_byte (b : Z) : Prop := 0 <= b < 256.

Definition len {A} (l : list A) : Z := Z.of_nat (List.length l).

(** [crc = 0; for b in xs: crc ^= b] *)
Definition xor_all (xs : list Z) : Z := fold_left Z.lxor xs 0.

(** Index normalisation of a slice bound: a negative bound counts from the
    end, and the result is clamped to [0, n]. *)
Definition clamp (n i : Z) : Z :=
  let j := if i <? 0 then i + n else i in Z.max 0 (Z.min n j).

(** [l[lo:hi]] *)
Definition slice {A} (l : list A) (lo hi : Z) : list A :=
  let a := clamp (len l) lo in
  let b := clamp (len l) hi in
  firstn (Z.to_nat (b - a)) (skipn (Z.to_nat a) l).

(** [l[lo:]] *)
Definition slice_from {A} (l : list A) (lo : Z) : list A :=
  skipn (Z.to_nat (clamp (len l) lo)) l.

(** [l[i]]; [None] stands for [IndexError]. *)
Definition getitem {A} (l : list A) (i : Z) : option A :=
  let j := if i <? 0 then i + len l else i in
  if (0 <=? j) && (j <? len l) then nth_error l (Z.to_nat j) else None.

(** ** PATTERN 2: whole-buffer encoder and parser *)

(** [bytearray.append] / [bytearray.extend] on a buffer under construction;
    [None] stands for [ValueError]. *)
Definition append (packet : list Z) (b : Z) : option (list Z) :=
  if in_range b then Some (packet ++ [b]) else None.

Definition extend (packet : list Z) (bs : list Z) : option (list Z) :=
  if forallb in_range bs then Some (packet ++ bs) else None.

Definition obind {A B} (o : option A) (k : A -> option B) : option B :=
  match o with Some a => k a | None => None end.

Notation "x <-? c ; k" := (obind c (fun x => k))
  (at level 61, c at next level, right associativity).

(** [build_packet(cmd, payload)]; [None] when an append raises. *)
Definition build_packet (cmd : Z) (payload : list Z) : option (list Z) :=
  let length := len payload + 1 in
  let packet := [] in
  packet <-? append packet SYNC ;
  packet <-? append packet length ;
  packet <-? append packet cmd ;
  packet <-? extend packet payload ;
  let crc := xor_all (slice_from packet 1) in
  packet <-? append packet crc ;
  Some packet.

(** [parse_packet(data)]: [None] is Python's [None] (no path raises: every
    index used is guarded by the length test). *)
Definition parse_packet (data : list Z) : option (Z * list Z) :=
  if len data <? 4 then None
  else match getitem data 0 with
  | None => None
  | Some d0 =>
    if negb (d0 =? 0xAA) then None
    else match getitem data 1 with
    | None => None
    | Some length =>
      if len data <? length + 3 then None
      else
        let crc := xor_all (slice data 1 (-1)) in
        match getitem data (-1), getitem data 2 with
        | Some dlast, Some cmd =>
          if negb (crc =? dlast) then None
          else Some (cmd, slice data 3 (-1))
        | _, _ => None
        end
    end
  end.

(** ** PATTERN 4: the receiver state machine *)

Inductive RxState : Type :=
| WAIT_SYNC
| WAIT_LENGTH
| WAIT_DATA
| WAIT_CRC.

Module PacketReceiver.

(** The attributes of a [PacketReceiver] instance. *)
Record t : Type := mk {
  state : RxState;
  length : Z;
  data : list Z;
  packets : list (list Z)
}.

(** [__init__] *)
Definition init : t :=
  {| state := WAIT_SYNC; length := 0; data := []; packets := [] |}.

(** Outcome of a method call: a returned value or a raised [ValueError]. *)
Inductive result (A : Type) : Type :=
| Ok (a : A)
| ValueError.
Arguments Ok {A} a.
Arguments ValueError {A}.

(** A method body: it reads and mutates [self] and returns or raises. *)
Definition M (A : Type) : Type := t -> result A * t.

Definition ret {A} (a : A) : M A := fun self => (Ok a, self).

Definition bind {A B} (m : M A) (k : A -> M B) : M B :=
  fun self =>
    match m self with
    | (Ok a, self') => k a self'
    | (ValueError, self') => (ValueError, self')
    end.

Notation "x <- c ;; k" := (bind c (fun x => k))
  (at level 61, c at next level, right associativity).
Notation "c ;; k" := (bind c (fun _ => k))
  (at level 61, right associativity).

Definition get {A} (field : t -> A) : M A := fun self => (Ok (field self), self).

Definition set_state (s : RxState) : M unit := fun self =>
  (Ok tt, {| state := s; length := length self;
             data := data self; packets := packets self |}).

Definition set_length (n : Z) : M unit := fun self =>
  (Ok tt, {| state := state self; length := n;
             data := data self; packets := packets self |}).

Definition set_data (d : list Z) : M unit := fun self =>
  (Ok tt, {| state := state self; length := length self;
             data := d; packets := packets self |}).

Definition set_packets (ps : list (list Z)) : M unit := fun self =>
  (Ok tt, {| state := state self; length := length self;
             data := data self; packets := ps |}).

(** [self.data.append(byte)] *)
Definition data_append (byte : Z) : M unit := fun self =>
  if in_range byte then set_data (data self ++ [byte]) self
  else (ValueError, self).

(** [self.packets.append(bytes(self.data))]: [bytes] copies the buffer, so
    the queued frame is a value of its own. *)
Definition packets_append (pkt : list Z) : M unit := fun self =>
  set_packets (packets self ++ [pkt]) self.

Definition when (c : bool) (m : M unit) : M unit := if c then m else ret tt.

(** [feed(self, byte)] *)
Definition feed (byte : Z) : M unit :=
  st <- get state ;;
  match st with
  | WAIT_SYNC =>
      when (byte =? 0xAA)
        (set_data [byte] ;;
         set_state WAIT_LENGTH)
  | WAIT_LENGTH =>
      set_length byte ;;
      data_append byte ;;
      set_state WAIT_DATA
  | WAIT_DATA =>
      data_append byte ;;
      d <- get data ;;
      n <- get length ;;
      when (len d =? n + 2)
        (set_state WAIT_CRC)
  | WAIT_CRC =>
      data_append byte ;;
      d <- get data ;;
      let crc := xor_all (slice d 1 (-1)) in
      when (crc =? byte)
        (packets_append d) ;;
      set_state WAIT_SYNC
  end.

(** [get_packets(self)] *)
Definition get_packets : M (list (list Z)) :=
  pkts <- get packets ;;
  set_packets [] ;;
  ret pkts.

(** [for byte in stream: receiver.feed(byte)] *)
Fixpoint feed_all (stream : list Z) : M unit :=
  match stream with
  | [] => ret tt
  | byte :: rest => feed byte ;; feed_all rest
  end.

End PacketReceiver.

Import PacketReceiver.

(** ** Vocabulary of the properties *)

(** The wire frame [SYNC, LENGTH, fields..., CHECKSUM] carrying the field
    bytes [p].  For [p = cmd :: payload] it is what [build_packet cmd payload]
    returns (lemma [build_packet_wire_frame] below). *)
Definition wire_frame (p : list Z) : list Z :=
  SYNC :: len p :: p ++ [xor_all (len p :: p)].

(** A fresh receiver is fed [stream] byte by byte and then drained once. *)
Definition receive (stream : list Z) : result (list (list Z)) * t :=
  (feed_all stream ;; get_packets) init.

(** Shape of a frame [f] in the output queue: [f[0] == 0xAA],
    [len(f) == f[1] + 3] and [f[-1]] is the XOR of [f[1:-1]]. *)
Definition well_formed (f : list Z) : bool :=
  match getitem f 0, getitem f 1, getitem f (-1) with
  | Some f0, Some f1, Some flast =>
      (f0 =? 0xAA) && (len f =? f1 + 3) && (flast =? xor_all (slice f 1 (-1)))
  | _, _, _ => false
  end.

(** A caller's use of one receiver: a sequence of method calls. *)
Inductive call : Type :=
| Feed (byte : Z)
| GetPackets.

(** Runs the calls in order and collects what each [get_packets] returned. *)
Fixpoint run (calls : list call) : M (list (list (list Z))) :=
  match calls with
  | [] => ret []
  | Feed byte :: rest => feed byte ;; run rest
  | GetPackets :: rest =>
      pkts <- get_packets ;;
      outs <- run rest ;;
      ret (pkts :: outs)
  end.

(** The bytes a sequence of calls feeds, in order. *)
Fixpoint fed (calls : list call) : list Z :=
  match calls with
  | [] => []
  | Feed byte :: rest => byte :: fed rest
  | GetPackets :: rest => fed rest
  end.

(** States a receiver can be in: after [__init__], and after any call of
    [feed] (with any integer, whether it returned or raised) or of
    [get_packets] on such a state. *)
Inductive reachable : t -> Prop :=
| reach_init : reachable init
| reach_feed : forall byte self,
    reachable self -> reachable (snd (feed byte self))
| reach_get_packets : forall self,
    reachable self -> reachable (snd (get_packets self)).

(** What the accumulator [self.data] holds in each state. *)
Definition accumulating (self : t) : Prop :=
  match state self with
  | WAIT_SYNC => True
  | WAIT_LENGTH => data self = [SYNC]
  | WAIT_DATA => exists rest, data self = SYNC :: length self :: rest
  | WAIT_CRC =>
      exists rest, data self = SYNC :: length self :: rest /\ len rest = length self
  end.

(** The invariant of the receiver: every queued frame is well formed and the
    accumulator matches the state. *)
Definition inv (self : t) : Prop :=
  Forall (fun f => well_formed f = true) (packets self) /\ accumulating self.

(** The three conditions of [well_formed], written out. *)
Definition frame_shape (f : list Z) : Prop :=
  getitem f 0 = Some 0xAA /\
  (exists f1, getitem f 1 = Some f1 /\ len f = f1 + 3) /\
  getitem f (-1) = Some (xor_all (slice f 1 (-1))).

(** The same receiver with the frames [q] already waiting in its queue. *)
Definition with_queued (q : list (list Z)) (self : t) : t :=
  mk (state self) (length self) (data self) (q ++ packets self).

(** Two receivers that no sequence of calls can tell apart: same state and
    queue, and the same accumulator and length wherever the state still
    reads them ([WAIT_SYNC] overwrites [data] before reading it, and
    [WAIT_LENGTH] overwrites [length]). *)
Definition alike (a b : t) : Prop :=
  state a = state b /\ packets a = packets b /\
  match state a with
  | WAIT_SYNC => True
  | WAIT_LENGTH => data a = data b
  | WAIT_DATA | WAIT_CRC => data a = data b /\ length a = length b
  end.

(** ** The mock serial port *)

(** [l[:hi]] *)
Definition slice_to {A} (l : list A) (hi : Z) : list A :=
  firstn (Z.to_nat (clamp (len l) hi)) l.

Fixpoint starts_with (needle hay : list Z) : bool :=
  match needle, hay with
  | [], _ => true
  | _ :: _, [] => false
  | x :: needle', y :: hay' => (x =? y) && starts_with needle' hay'
  end.

(** [needle in hay] on [bytes]: [needle] occurs in [hay] as a contiguous
    run. *)
Fixpoint contains (needle hay : list Z) : bool :=
  starts_with needle hay ||
  match hay with
  | [] => false
  | _ :: hay' => contains needle hay'
  end.

(** [hay.index(needle)]: position of the first occurrence; [None] stands
    for [ValueError]. *)
Fixpoint bytes_index (needle hay : list Z) : option Z :=
  if starts_with needle hay then Some 0
  else match hay with
       | [] => None
       | _ :: hay' => option_map Z.succ (bytes_index needle hay')
       end.

Module MockSerial.
Import Stdlib.Strings.String Stdlib.Strings.Ascii.

(** A [bytes] literal without escapes, and the two characters the source
    writes as escapes. *)
Definition b (s : string) : list Z :=
  map (fun c => Z.of_N (N_of_ascii c)) (list_ascii_of_string s).
Definition CR : Z := 13.
Definition LF : Z := 10.

(** The attributes the methods read or write.  [port], [baudrate] and
    [timeout] are stored by [__init__] and only ever printed; printing is
    left out. *)
Record t : Type := mk {
  _rx_buffer : list Z;
  _is_open : bool
}.

(** [__init__] *)
Definition init : t := {| _rx_buffer := []; _is_open := true |}.

(** [write(self, data)]: the canned response replaces the receive buffer. *)
Definition write (data : list Z) (self : t) : Z * t :=
  let response :=
    if contains (b "AT" ++ [CR; LF]) data then
      b "OK" ++ [CR; LF]
    else if contains (b "AT+VERSION") data then
      b "+VERSION: 1.2.3" ++ [CR; LF] ++ b "OK" ++ [CR; LF]
    else if contains (b "AT+CSQ") data then
      b "+CSQ: 18,0" ++ [CR; LF] ++ b "OK" ++ [CR; LF]
    else if contains (b "READ_TEMP") data then
      b "TEMP:25.5" ++ [CR; LF]
    else
      b "ERROR" ++ [CR; LF] in
  (len data, {| _rx_buffer := response; _is_open := _is_open self |}).

(** [read(self, size=1)] *)
Definition read (size : Z) (self : t) : list Z * t :=
  let data := slice_to (_rx_buffer self) size in
  (data, {| _rx_buffer := slice_from (_rx_buffer self) size;
            _is_open := _is_open self |}).

(** [readline(self)].  [index] cannot raise under the [in] test, so the
    [None] branch is never taken (lemma [first_newline]). *)
Definition readline (self : t) : list Z * t :=
  if contains [LF] (_rx_buffer self) then
    match bytes_index [LF] (_rx_buffer self) with
    | Some i =>
        let idx := i + 1 in
        let line := slice_to (_rx_buffer self) idx in
        (line, {| _rx_buffer := slice_from (_rx_buffer self) idx;
                  _is_open := _is_open self |})
    | None => ([], self)
    end
  else
    (_rx_buffer self, {| _rx_buffer := []; _is_open := _is_open self |}).

(** [read_all(self)] *)
Definition read_all (self : t) : list Z * t :=
  (_rx_buffer self, {| _rx_buffer := []; _is_open := _is_open self |}).

(** [in_waiting] *)
Definition in_waiting (self : t) : Z := len (_rx_buffer self).

(** [close(self)] *)
Definition close (self : t) : t :=
  {| _rx_buffer := _rx_buffer self; _is_open := false |}.

(** [reset_input_buffer(self)] *)
Definition reset_input_buffer (self : t) : t :=
  {| _rx_buffer := []; _is_open := _is_open self |}.

End MockSerial.

(** ** Exercise 2: SLIP encoding *)

Definition END : Z := 0xC0.
Definition ESC : Z := 0xDB.
Definition ESC_END : Z := 0xDC.
Definition ESC_ESC : Z := 0xDD.

(** The loop [for byte in data] of [slip_encode], on the buffer built so
    far; [None] when [encoded.append(byte)] raises [ValueError]. *)
Fixpoint slip_encode_loop (data : list Z) (encoded : list Z) : option (list Z) :=
  match data with
  | [] => Some encoded
  | byte :: rest =>
      encoded <-? (if byte =? END then extend encoded [ESC; ESC_END]
                   else if byte =? ESC then extend encoded [ESC; ESC_ESC]
                   else append encoded byte) ;
      slip_encode_loop rest encoded
  end.

(** [slip_encode(data)] *)
Definition slip_encode (data : list Z) : option (list Z) :=
  encoded <-? extend [] [END] ;
  encoded <-? slip_encode_loop data encoded ;
  encoded <-? append encoded END ;
  Some encoded.

(** ** Exercise 3: Modbus CRC-16 *)

(** One turn of the inner loop [for _ in range(8)]. *)
Definition crc_bit (crc : Z) : Z :=
  if negb (Z.land crc 0x0001 =? 0)
  then Z.lxor (Z.shiftr crc 1) 0xA001
  else Z.shiftr crc 1.

(** One turn of the outer loop [for byte in data]. *)
Definition crc_byte (crc byte : Z) : Z :=
  Nat.iter 8 crc_bit (Z.lxor crc byte).

(** [modbus_crc16(data)] *)
Definition modbus_crc16 (data : list Z) : Z :=
  fold_left crc_byte data 0xFFFF.

(** ** Vocabulary of the further properties *)

(** A stream made of frames, each preceded by some bytes of noise:
    [items] pairs the noise with the field bytes of the frame after it. *)
Definition noisy_stream (items : list (list Z * list Z)) : list Z :=
  flat_map (fun it => fst it ++ wire_frame (snd it)) items.

(** [embeds fs s]: the frames [fs] occur in the stream [s] one after the
    other, in this order and without overlap, with any bytes between them. *)
Inductive embeds : list (list Z) -> list Z -> Prop :=
| embeds_nil : forall s, embeds [] s
| embeds_skip : forall b fs s, embeds fs s -> embeds fs (b :: s)
| embeds_frame : forall f fs s, embeds fs s -> embeds (f :: fs) (f ++ s).

(** The bytes of the stream a receiver is still holding for the frame in
    progress. *)
Definition pending (self : t) : list Z :=
  match state self with
  | WAIT_SYNC => []
  | _ => data self
  end.

(** Sizes of the accumulator and of the queued frames, state by state. *)
Definition sized (self : t) : Prop :=
  Forall (fun f => 4 <= len f <= 258) (packets self) /\
  match state self with
  | WAIT_SYNC => len (data self) <= 258
  | WAIT_LENGTH => len (data self) = 1
  | WAIT_DATA =>
      is_byte (length self) /\ 2 <= len (data self) /\
      (length self <> 0 -> len (data self) < length self + 2)
  | WAIT_CRC =>
      is_byte (length self) /\ len (data self) = length self + 2 /\
      3 <= len (data self)
  end.

(** A polling loop on the mock port: while [in_waiting > 0], call
    [readline()], at most [n] times; the lines read, in order. *)
Fixpoint read_lines (n : nat) (ser : MockSerial.t) : list (list Z) * MockSerial.t :=
  match n with
  | O => ([], ser)
  | S n =>
      if 0 <? MockSerial.in_waiting ser then
        let (line, ser1) := MockSerial.readline ser in
        let (lines, ser2) := read_lines n ser1 in
        (line :: lines, ser2)
      else ([], ser)
  end.

(** What [slip_encode] writes for one byte, and for the bytes of [data]. *)
Definition escape_byte (byte : Z) : list Z :=
  if byte =? END then [ESC; ESC_END]
  else if byte =? ESC then [ESC; ESC_ESC]
  else [byte].

Definition escape (data : list Z) : list Z := flat_map escape_byte data.

(** A CRC register: 16 bits. *)
Definition is_crc (crc : Z) : Prop := 0 <= crc < 65536.

(** The turn of [crc_bit] undone: the top bit of the result tells which
    branch was taken. *)
Definition crc_unbit (crc : Z) : Z :=
  if Z.testbit crc 15 then 2 * Z.lxor crc 0xA001 + 1 else 2 * crc.

(** The [n] integers from [start] on; all CRC registers, for checks by
    exhaustion. *)
Fixpoint upto (n : nat) (start : Z) : list Z :=
  match n with
  | O => []
  | S n => start :: upto n (start + 1)
  end.

Definition all_crc : list Z := upto (Z.to_nat 65536) 0.

(** ** Lists, slices and checksums *)

Lemma len_nil {A} : len (@nil A) = 0.
Proof. reflexivity. Qed.

Lemma len_cons {A} (x : A) l : len (x :: l) = len l + 1.
Proof. unfold len. cbn [List.length]. lia. Qed.

Lemma len_app {A} (l l' : list A) : len (l ++ l') = len l + len l'.
Proof. unfold len. rewrite length_app. lia. Qed.

Lemma len_nonneg {A} (l : list A) : 0 <= len l.
Proof. unfold len. lia. Qed.

Lemma in_range_spec b : in_range b = true <-> is_byte b.
Proof. unfold in_range, is_byte. rewrite andb_true_iff. lia. Qed.

Lemma in_range_byte b : is_byte b -> in_range b = true.
Proof. apply in_range_spec. Qed.

Lemma forallb_in_range bs : Forall is_byte bs -> forallb in_range bs = true.
Proof.
  intros H. apply forallb_forall. intros b Hb.
  apply in_range_byte. rewrite Forall_forall in H. auto.
Qed.

(** [l[k:-1]] of a buffer that ends in one more byte than the part wanted. *)
Lemma slice_middle {A} (pre mid : list A) (c : A) :
  slice (pre ++ mid ++ [c]) (len pre) (-1) = mid.
Proof.
  unfold slice, clamp.
  rewrite !len_app. change (len [c]) with 1.
  pose proof (len_nonneg pre). pose proof (len_nonneg mid).
  destruct (Z.ltb_spec (len pre) 0); [lia|].
  change (-1 <? 0) with true. cbv iota.
  replace (Z.max 0 (Z.min (len pre + (len mid + 1)) (len pre))) with (len pre) by lia.
  replace (Z.max 0 (Z.min (len pre + (len mid + 1)) (-1 + (len pre + (len mid + 1)))))
    with (len pre + len mid) by lia.
  replace (len pre + len mid - len pre) with (len mid) by lia.
  unfold len. rewrite !Nat2Z.id.
  rewrite skipn_app, skipn_all, Nat.sub_diag. cbn [app skipn].
  rewrite firstn_app, firstn_all, Nat.sub_diag. cbn [firstn].
  apply app_nil_r.
Qed.

Lemma slice_1_m1 {A} (x : A) mid c : slice (x :: mid ++ [c]) 1 (-1) = mid.
Proof. exact (slice_middle [x] mid c). Qed.

Lemma getitem_0 {A} (x : A) l : getitem (x :: l) 0 = Some x.
Proof.
  unfold getitem. rewrite len_cons. pose proof (len_nonneg l).
  change (0 <? 0) with false. cbv iota.
  destruct (Z.ltb_spec 0 (len l + 1)); [reflexivity | lia].
Qed.

Lemma getitem_nat {A} (l : list A) (i : nat) :
  (i < List.length l)%nat -> getitem l (Z.of_nat i) = nth_error l i.
Proof.
  intros Hi. unfold getitem, len.
  destruct (Z.ltb_spec (Z.of_nat i) 0); [lia|].
  destruct (Z.leb_spec 0 (Z.of_nat i)); [|lia].
  destruct (Z.ltb_spec (Z.of_nat i) (Z.of_nat (List.length l))); [|lia].
  cbn [andb]. now rewrite Nat2Z.id.
Qed.

Lemma getitem_last {A} (l : list A) c : getitem (l ++ [c]) (-1) = Some c.
Proof.
  unfold getitem. rewrite len_app. change (len [c]) with 1.
  pose proof (len_nonneg l).
  change (-1 <? 0) with true. cbv iota.
  destruct (Z.leb_spec 0 (-1 + (len l + 1))); [|lia].
  destruct (Z.ltb_spec (-1 + (len l + 1)) (len l + 1)); [|lia].
  cbn [andb]. replace (-1 + (len l + 1)) with (len l) by lia.
  unfold len. rewrite Nat2Z.id.
  rewrite nth_error_app2 by lia. now rewrite Nat.sub_diag.
Qed.

Lemma lxor_byte a b : is_byte a -> is_byte b -> is_byte (Z.lxor a b).
Proof.
  unfold is_byte. intros Ha Hb.
  assert (H0 : 0 <= Z.lxor a b) by (apply Z.lxor_nonneg; lia).
  split; [exact H0|].
  destruct (Z.eq_dec (Z.lxor a b) 0) as [->|Hne]; [lia|].
  apply (Z.log2_lt_pow2 _ 8); [lia|].
  pose proof (Z.log2_lxor a b ltac:(lia) ltac:(lia)) as Hl.
  assert (Ha' : Z.log2 a < 8).
  { destruct (Z.eq_dec a 0) as [->|]; [cbn; lia|].
    apply Z.log2_lt_pow2; lia. }
  assert (Hb' : Z.log2 b < 8).
  { destruct (Z.eq_dec b 0) as [->|]; [cbn; lia|].
    apply Z.log2_lt_pow2; lia. }
  lia.
Qed.

Lemma fold_lxor_byte xs : forall acc,
  is_byte acc -> Forall is_byte xs -> is_byte (fold_left Z.lxor xs acc).
Proof.
  induction xs as [|x xs IH]; intros acc Hacc Hxs; cbn [fold_left].
  - exact Hacc.
  - inversion Hxs; subst. apply IH; [apply lxor_byte|]; assumption.
Qed.

Lemma xor_all_byte xs : Forall is_byte xs -> is_byte (xor_all xs).
Proof. apply fold_lxor_byte. unfold is_byte. lia. Qed.

(** ** One step of the state machine, state by state *)

Ltac run_feed :=
  cbv [feed bind get ret when set_state set_length set_data set_packets
       data_append packets_append state length data packets].

Lemma feed_sync self :
  state self = WAIT_SYNC ->
  feed SYNC self = (Ok tt, mk WAIT_LENGTH (length self) [SYNC] (packets self)).
Proof. destruct self as [s n d q]; cbn; intros ->. reflexivity. Qed.

Lemma feed_noise byte self :
  state self = WAIT_SYNC -> byte <> SYNC -> feed byte self = (Ok tt, self).
Proof.
  destruct self as [s n d q]; cbn; intros -> Hb. run_feed.
  destruct (Z.eqb_spec byte 170); [contradiction | reflexivity].
Qed.

Lemma feed_length byte self :
  state self = WAIT_LENGTH -> is_byte byte ->
  feed byte self = (Ok tt, mk WAIT_DATA byte (data self ++ [byte]) (packets self)).
Proof.
  destruct self as [s n d q]; cbn; intros -> Hb. run_feed.
  now rewrite (in_range_byte _ Hb).
Qed.

Lemma feed_data byte self :
  state self = WAIT_DATA -> is_byte byte ->
  feed byte self =
    (Ok tt, mk (if len (data self ++ [byte]) =? length self + 2
                then WAIT_CRC else WAIT_DATA)
               (length self) (data self ++ [byte]) (packets self)).
Proof.
  destruct self as [s n d q]; cbn; intros -> Hb. run_feed.
  rewrite (in_range_byte _ Hb).
  now destruct (len (d ++ [byte]) =? n + 2).
Qed.

Lemma feed_crc byte self :
  state self = WAIT_CRC -> is_byte byte ->
  feed byte self =
    (Ok tt, mk WAIT_SYNC (length self) (data self ++ [byte])
               (if xor_all (slice (data self ++ [byte]) 1 (-1)) =? byte
                then packets self ++ [data self ++ [byte]]
                else packets self)).
Proof.
  destruct self as [s n d q]; cbn; intros -> Hb. run_feed.
  rewrite (in_range_byte _ Hb).
  now destruct (xor_all (slice (d ++ [byte]) 1 (-1)) =? byte).
Qed.

(** A byte outside [0, 256) reaches [bytearray.append] in every state but
    [WAIT_SYNC], and raises there. *)
Lemma feed_raises byte self :
  state self <> WAIT_SYNC -> ~ is_byte byte ->
  fst (feed byte self) = ValueError.
Proof.
  destruct self as [s n d q]; cbn; intros Hs Hb.
  assert (Hr : in_range byte = false).
  { destruct (in_range byte) eqn:E; [|reflexivity].
    apply in_range_spec in E. contradiction. }
  destruct s; [contradiction| | |]; run_feed; now rewrite Hr.
Qed.

(** ** Feeding a stream *)

Lemma feed_all_cons byte rest self self' :
  feed byte self = (Ok tt, self') ->
  feed_all (byte :: rest) self = feed_all rest self'.
Proof. intros H. cbn [feed_all]. unfold bind. now rewrite H. Qed.

Lemma feed_all_app xs ys self self' :
  feed_all xs self = (Ok tt, self') ->
  feed_all (xs ++ ys) self = feed_all ys self'.
Proof.
  revert self. induction xs as [|x xs IH]; intros self H.
  - cbn in H. injection H as <-. reflexivity.
  - cbn [app feed_all] in *. unfold bind in *.
    destruct (feed x self) as [[[]|] s1]; [|discriminate].
    now apply IH.
Qed.

(** A stream of bytes never makes [feed] raise. *)
Lemma feed_ok byte self :
  is_byte byte -> exists self', feed byte self = (Ok tt, self').
Proof.
  intros Hb. destruct (state self) eqn:Hs.
  - destruct (Z.eq_dec byte SYNC) as [->|Hne].
    + rewrite feed_sync by assumption. eauto.
    + rewrite feed_noise by assumption. eauto.
  - rewrite feed_length by assumption. eauto.
  - rewrite feed_data by assumption. eauto.
  - rewrite feed_crc by assumption. eauto.
Qed.

Lemma feed_all_ok stream : forall self,
  Forall is_byte stream -> exists self', feed_all stream self = (Ok tt, self').
Proof.
  induction stream as [|b bs IH]; intros self H.
  - cbn. unfold ret. eauto.
  - inversion H as [|? ? Hb Hbs]; subst.
    destruct (feed_ok b self Hb) as [s1 H1].
    rewrite (feed_all_cons _ _ _ _ H1). apply IH, Hbs.
Qed.

(** The payload phase: from [WAIT_DATA], exactly the missing bytes take the
    machine to [WAIT_CRC]. *)
Lemma feed_all_payload p : forall self,
  state self = WAIT_DATA -> Forall is_byte p -> p <> [] ->
  len (data self) + len p = length self + 2 ->
  feed_all p self =
    (Ok tt, mk WAIT_CRC (length self) (data self ++ p) (packets self)).
Proof.
  induction p as [|b p IH]; intros self Hs Hp Hne Hlen; [congruence|].
  inversion Hp as [|? ? Hb Hp']; subst.
  rewrite (feed_all_cons _ _ _ _ (feed_data b self Hs Hb)).
  assert (Hd : len (data self ++ [b]) = len (data self) + 1)
    by (rewrite len_app; reflexivity).
  rewrite len_cons in Hlen. rewrite Hd.
  destruct p as [|b' p].
  - rewrite len_nil in Hlen.
    destruct (Z.eqb_spec (len (data self) + 1) (length self + 2)); [|lia].
    reflexivity.
  - pose proof (len_nonneg p). rewrite len_cons in Hlen.
    destruct (Z.eqb_spec (len (data self) + 1) (length self + 2)); [lia|].
    rewrite IH; cbn [state length data packets];
      [ now rewrite <- app_assoc | reflexivity | assumption | discriminate | ].
    rewrite Hd, len_cons. lia.
Qed.

(** A structurally complete candidate [SYNC, L, payload, c] met in
    [WAIT_SYNC]: it is queued exactly when [c] is the checksum, and the
    machine is back in [WAIT_SYNC] either way. *)
Lemma feed_all_candidate p c self :
  state self = WAIT_SYNC -> Forall is_byte p -> 1 <= len p <= 255 -> is_byte c ->
  feed_all (SYNC :: len p :: p ++ [c]) self =
    (Ok tt, mk WAIT_SYNC (len p) (SYNC :: len p :: p ++ [c])
               (if xor_all (len p :: p) =? c
                then packets self ++ [SYNC :: len p :: p ++ [c]]
                else packets self)).
Proof.
  intros Hs Hp Hlen Hc.
  rewrite (feed_all_cons _ _ _ _ (feed_sync self Hs)).
  erewrite feed_all_cons by (apply feed_length; [reflexivity | unfold is_byte; lia]).
  cbn [data packets app].
  erewrite feed_all_app; cycle 1.
  { apply feed_all_payload; cbn [state length data packets]; auto.
    - intros ->. rewrite len_nil in Hlen. lia.
    - rewrite !len_cons, len_nil. lia. }
  cbn [feed_all app]. unfold bind.
  rewrite feed_crc by (reflexivity || assumption).
  cbn [state length data packets app].
  change (SYNC :: len p :: p ++ [c]) with (SYNC :: (len p :: p) ++ [c]).
  rewrite slice_1_m1.
  reflexivity.
Qed.

(** Once the accumulator is at least as long as [length + 2] in [WAIT_DATA],
    the test [len(self.data) == self.length + 2] can never succeed again:
    every later byte is swallowed and no frame is ever queued. *)
Lemma feed_all_wedged stream : forall self,
  state self = WAIT_DATA -> length self + 2 <= len (data self) ->
  Forall is_byte stream ->
  feed_all stream self =
    (Ok tt, mk WAIT_DATA (length self) (data self ++ stream) (packets self)).
Proof.
  induction stream as [|b bs IH]; intros self Hs Hlen Hbs.
  - cbn. unfold ret. rewrite app_nil_r. destruct self; cbn in *; now subst.
  - inversion Hbs as [|? ? Hb Hbs']; subst.
    rewrite (feed_all_cons _ _ _ _ (feed_data b self Hs Hb)).
    assert (Hd : len (data self ++ [b]) = len (data self) + 1)
      by (rewrite len_app; reflexivity).
    rewrite Hd.
    destruct (Z.eqb_spec (len (data self) + 1) (length self + 2)); [lia|].
    rewrite IH; cbn [state length data packets]; auto; [|lia].
    now rewrite <- app_assoc.
Qed.

(** ** The invariant *)

Lemma getitem_1 {A} (x y : A) l : getitem (x :: y :: l) 1 = Some y.
Proof. apply (getitem_nat (x :: y :: l) 1). cbn. lia. Qed.

Lemma getitem_2 {A} (x y z : A) l : getitem (x :: y :: z :: l) 2 = Some z.
Proof. apply (getitem_nat (x :: y :: z :: l) 2). cbn. lia. Qed.

Lemma well_formed_emitted n rest c :
  len rest = n -> xor_all (n :: rest) = c ->
  well_formed (SYNC :: n :: rest ++ [c]) = true.
Proof.
  intros Hn Hc. unfold well_formed.
  rewrite getitem_0, getitem_1.
  change (SYNC :: n :: rest ++ [c]) with ((SYNC :: n :: rest) ++ [c]) at 1.
  rewrite getitem_last.
  change (SYNC :: n :: rest ++ [c]) with (SYNC :: (n :: rest) ++ [c]) at 2.
  rewrite slice_1_m1, Hc, (Z.eqb_refl c), andb_true_r.
  rewrite !len_cons, len_app, Hn. change (len [c]) with 1.
  replace (n + 1 + 1 + 1) with (n + 3) by lia.
  rewrite !Z.eqb_refl. reflexivity.
Qed.

Lemma inv_init : inv init.
Proof. split; [constructor | exact I]. Qed.

Lemma inv_feed byte self : inv self -> inv (snd (feed byte self)).
Proof.
  destruct self as [s n d q]. intros [Hq Hacc].
  unfold accumulating in Hacc. cbn [state length data packets] in *.
  destruct s.
  - (* WAIT_SYNC *)
    run_feed. destruct (Z.eqb_spec byte 170) as [->|]; cbn [snd].
    + split; [assumption | reflexivity].
    + split; [assumption | exact I].
  - (* WAIT_LENGTH *)
    run_feed. destruct (in_range byte); cbn [snd].
    + split; [assumption|]. subst d. now exists [].
    + split; assumption.
  - (* WAIT_DATA *)
    destruct Hacc as [rest ->].
    run_feed. destruct (in_range byte); cbn [snd]; [|split; [assumption | now exists rest]].
    destruct (Z.eqb_spec (len ((SYNC :: n :: rest) ++ [byte])) (n + 2)) as [E|E];
      cbn [snd]; (split; [assumption|]); exists (rest ++ [byte]);
      unfold accumulating; cbn [state length data]; [|reflexivity].
    split; [reflexivity|].
    change ((SYNC :: n :: rest) ++ [byte]) with (SYNC :: n :: rest ++ [byte]) in E.
    rewrite !len_cons in E. lia.
  - (* WAIT_CRC *)
    destruct Hacc as [rest [-> Hlen]].
    run_feed. destruct (in_range byte); cbn [snd];
      [|split; [assumption | now exists rest]].
    destruct (Z.eqb_spec (xor_all (slice ((SYNC :: n :: rest) ++ [byte]) 1 (-1))) byte)
      as [E|E]; cbn [snd]; (split; [|exact I]); cbn [packets]; [|assumption].
    apply Forall_app. split; [assumption|]. constructor; [|constructor].
    change ((SYNC :: n :: rest) ++ [byte]) with (SYNC :: (n :: rest) ++ [byte]) in E.
    rewrite slice_1_m1 in E.
    now apply well_formed_emitted.
Qed.

Lemma inv_get_packets self : inv self -> inv (snd (get_packets self)).
Proof.
  destruct self as [s n d q]. intros [Hq Hacc]. cbn.
  split; [constructor | exact Hacc].
Qed.

Lemma reachable_inv self : reachable self -> inv self.
Proof.
  induction 1; [apply inv_init | now apply inv_feed | now apply inv_get_packets].
Qed.

Lemma inv_feed_all stream : forall self, inv self -> inv (snd (feed_all stream self)).
Proof.
  induction stream as [|b bs IH]; intros self H; [exact H|].
  cbn [feed_all]. unfold bind.
  pose proof (inv_feed b self H) as H1.
  destruct (feed b self) as [[[]|] s1]; cbn [snd] in *; [now apply IH | assumption].
Qed.

Lemma well_formed_shape f : well_formed f = true <-> frame_shape f.
Proof.
  unfold well_formed, frame_shape. split.
  - destruct (getitem f 0) as [f0|]; [|discriminate].
    destruct (getitem f 1) as [f1|]; [|discriminate].
    destruct (getitem f (-1)) as [fl|]; [|discriminate].
    rewrite !andb_true_iff, !Z.eqb_eq. intros [[-> Hl] ->].
    split; [reflexivity|]. split; [|reflexivity]. now exists f1.
  - intros [-> [[f1 [-> Hl]] ->]].
    now rewrite Hl, !Z.eqb_refl.
Qed.

(** A queued candidate carries the right checksum. *)
Lemma well_formed_checksum n rest c :
  well_formed (SYNC :: n :: rest ++ [c]) = true -> c = xor_all (n :: rest).
Proof.
  intros H. apply well_formed_shape in H. destruct H as (_ & _ & H).
  change (SYNC :: n :: rest ++ [c]) with ((SYNC :: n :: rest) ++ [c]) in H at 1.
  rewrite getitem_last in H.
  change (SYNC :: n :: rest ++ [c]) with (SYNC :: (n :: rest) ++ [c]) in H.
  rewrite slice_1_m1 in H. congruence.
Qed.

(** ** Draining *)

Lemma get_packets_eq self :
  get_packets self =
    (Ok (packets self), mk (state self) (length self) (data self) []).
Proof. reflexivity. Qed.

Lemma receive_eq stream self :
  feed_all stream init = (Ok tt, self) ->
  receive stream =
    (Ok (packets self), mk (state self) (length self) (data self) []).
Proof. intros H. unfold receive, bind. now rewrite H. Qed.

(** Frames already queued are carried along untouched by [feed]. *)
Lemma feed_with_queued q byte self :
  feed byte (with_queued q self) =
    (fst (feed byte self), with_queued q (snd (feed byte self))).
Proof.
  destruct self as [s n d q0]. unfold with_queued. cbn [state length data packets].
  destruct s; run_feed.
  - now destruct (byte =? 170).
  - now destruct (in_range byte).
  - destruct (in_range byte); [|reflexivity].
    now destruct (len (d ++ [byte]) =? n + 2).
  - destruct (in_range byte); [|reflexivity].
    destruct (xor_all (slice (d ++ [byte]) 1 (-1)) =? byte); cbn [fst snd];
      [now rewrite app_assoc | reflexivity].
Qed.

Lemma feed_all_with_queued q stream : forall self,
  feed_all stream (with_queued q self) =
    (fst (feed_all stream self), with_queued q (snd (feed_all stream self))).
Proof.
  induction stream as [|b bs IH]; intros self; [reflexivity|].
  cbn [feed_all]. unfold bind. rewrite feed_with_queued.
  destruct (feed b self) as [[[]|] s1]; cbn [fst snd]; [apply IH | reflexivity].
Qed.

(** ** Receivers that behave alike *)

Lemma alike_feed byte a b :
  alike a b ->
  fst (feed byte a) = fst (feed byte b) /\
  alike (snd (feed byte a)) (snd (feed byte b)).
Proof.
  destruct a as [s n d q], b as [s' n' d' q'].
  unfold alike. cbn [state length data packets].
  intros (<- & <- & H). destruct s; run_feed.
  - destruct (byte =? 170); cbn [fst snd state length data packets]; auto.
  - subst d'. destruct (in_range byte);
      cbn [fst snd state length data packets]; auto.
  - destruct H as [<- <-]. destruct (in_range byte); [|cbn; auto].
    destruct (len (d ++ [byte]) =? n + 2);
      cbn [fst snd state length data packets]; auto.
  - destruct H as [<- <-]. destruct (in_range byte); [|cbn; auto].
    destruct (xor_all (slice (d ++ [byte]) 1 (-1)) =? byte);
      cbn [fst snd state length data packets]; auto.
Qed.

Lemma alike_feed_all stream : forall a b,
  alike a b ->
  fst (feed_all stream a) = fst (feed_all stream b) /\
  alike (snd (feed_all stream a)) (snd (feed_all stream b)).
Proof.
  induction stream as [|x xs IH]; intros a b H; [cbn; auto|].
  cbn [feed_all]. unfold bind.
  destruct (alike_feed x a b H) as [Hf Ha].
  destruct (feed x a) as [[[]|] a1], (feed x b) as [[[]|] b1];
    cbn [fst snd] in *; try discriminate; auto.
Qed.

(** In [WAIT_SYNC] the receiver is as good as new: it behaves like a fresh
    one that already holds the same queue. *)
Lemma alike_fresh self :
  state self = WAIT_SYNC -> alike self (with_queued (packets self) init).
Proof.
  intros Hs. unfold alike, with_queued. cbn [state packets init].
  rewrite Hs, app_nil_r. auto.
Qed.

Lemma feed_all_from_wait_sync stream self :
  state self = WAIT_SYNC ->
  fst (feed_all stream self) = fst (feed_all stream init) /\
  state (snd (feed_all stream self)) = state (snd (feed_all stream init)) /\
  packets (snd (feed_all stream self)) =
    packets self ++ packets (snd (feed_all stream init)).
Proof.
  intros Hs.
  destruct (alike_feed_all stream _ _ (alike_fresh self Hs)) as [Hf (H1 & H2 & _)].
  rewrite feed_all_with_queued in Hf, H1, H2. cbn [fst snd] in *.
  auto.
Qed.

(** ** Frames with at least one field byte *)

Lemma feed_all_wire_frame p self :
  state self = WAIT_SYNC -> Forall is_byte p -> 1 <= len p <= 255 ->
  feed_all (wire_frame p) self =
    (Ok tt, mk WAIT_SYNC (len p) (wire_frame p) (packets self ++ [wire_frame p])).
Proof.
  intros Hs Hp Hlen. unfold wire_frame.
  rewrite feed_all_candidate; auto.
  - now rewrite Z.eqb_refl.
  - apply xor_all_byte. constructor; [unfold is_byte; lia | assumption].
Qed.

Lemma receive_wire_frame p :
  Forall is_byte p -> 1 <= len p <= 255 ->
  fst (receive (wire_frame p)) = Ok [wire_frame p].
Proof.
  intros Hp Hlen.
  now rewrite (receive_eq _ _ (feed_all_wire_frame p init eq_refl Hp Hlen)).
Qed.

Lemma receive_two_wire_frames p1 p2 :
  Forall is_byte p1 -> 1 <= len p1 <= 255 ->
  Forall is_byte p2 -> 1 <= len p2 <= 255 ->
  fst (receive (wire_frame p1 ++ wire_frame p2)) = Ok [wire_frame p1; wire_frame p2].
Proof.
  intros H1 L1 H2 L2.
  erewrite receive_eq; cycle 1.
  { erewrite feed_all_app by (apply feed_all_wire_frame; auto; reflexivity).
    apply feed_all_wire_frame; auto. }
  reflexivity.
Qed.

(** A zero length byte wedges the receiver: whatever bytes follow, nothing is
    ever delivered again. *)
Lemma receive_after_zero_length stream :
  Forall is_byte stream -> fst (receive ([SYNC; 0; 0] ++ stream)) = Ok [].
Proof.
  intros H.
  erewrite receive_eq; cycle 1.
  { erewrite feed_all_app by reflexivity.
    apply feed_all_wedged; [reflexivity | cbn; lia | assumption]. }
  reflexivity.
Qed.

(** [build_packet] emits the wire frame of [cmd :: payload]. *)
Lemma build_packet_wire_frame cmd payload :
  is_byte cmd -> Forall is_byte payload -> len payload <= 254 ->
  build_packet cmd payload = Some (wire_frame (cmd :: payload)).
Proof.
  intros Hc Hp Hlen. pose proof (len_nonneg payload) as H0.
  assert (Hl : is_byte (len payload + 1)) by (unfold is_byte; lia).
  assert (Hx : is_byte (xor_all (len payload + 1 :: cmd :: payload))).
  { apply xor_all_byte. apply Forall_cons; [exact Hl|].
    apply Forall_cons; assumption. }
  unfold build_packet, append, extend, obind. cbn [app].
  change (in_range SYNC) with true. cbv iota.
  rewrite (in_range_byte _ Hl), (in_range_byte _ Hc), (forallb_in_range _ Hp).
  unfold slice_from, clamp. cbn [app]. rewrite !len_cons.
  destruct (Z.ltb_spec 1 0); [lia|].
  replace (Z.max 0 (Z.min (len payload + 1 + 1 + 1) 1)) with 1 by lia.
  change (Z.to_nat 1) with 1%nat. cbn [skipn].
  rewrite (in_range_byte _ Hx).
  unfold wire_frame. now rewrite len_cons.
Qed.

Lemma feed_all_noise noise : forall self,
  state self = WAIT_SYNC -> Forall (fun b => b <> SYNC) noise ->
  feed_all noise self = (Ok tt, self).
Proof.
  induction noise as [|b bs IH]; intros self Hs H; [reflexivity|].
  inversion H as [|? ? Hb Hbs]; subst.
  rewrite (feed_all_cons _ _ _ _ (feed_noise b self Hs Hb)). now apply IH.
Qed.

Lemma snoc_neq {A} (l : list A) x : l ++ [x] <> l.
Proof.
  intros H. apply (f_equal (@List.length A)) in H.
  rewrite length_app in H. cbn in H. lia.
Qed.

(** * The properties of the specification *)

(** ** Zero-length frames *)

(** C1 (P5, zero-length): the specification expects the three bytes
    [0xAA 0x00 0x00] to drain as one frame with an empty payload.  On the
    code the receiver is still in [WAIT_DATA] after them, holding all three
    bytes in its accumulator, and the drain returns no frame: the length test
    of [WAIT_DATA] is made only after a data byte was appended, so it is
    never met when the length byte is 0. *)
Theorem zero_length_frame_not_delivered :
  receive [0xAA; 0x00; 0x00] =
    (Ok [], mk WAIT_DATA 0 [0xAA; 0x00; 0x00] []).
Proof. reflexivity. Qed.

(** C2 (P1, round-trip): for the empty payload the wire frame is
    [0xAA 0x00 0x00], and feeding it to a fresh receiver and draining returns
    the empty list instead of the list holding that frame.  (For payloads of
    1 to 255 bytes the round trip holds: [receive_wire_frame].) *)
Theorem roundtrip_fails_on_empty_payload :
  wire_frame [] = [0xAA; 0x00; 0x00] /\
  fst (receive (wire_frame [])) = Ok [] /\
  fst (receive (wire_frame [])) <> Ok [wire_frame []].
Proof. repeat split. discriminate. Qed.

(** C4 (P4, back-to-back frames): when the first of two valid frames has
    length 0, neither frame is delivered; the second frame is swallowed as
    payload of the first.  (For two frames of 1 to 255 field bytes the property
    holds: [receive_two_wire_frames].) *)
Theorem back_to_back_lost_after_zero_length :
  let f1 := wire_frame [] in
  let f2 := wire_frame [0x02] in
  f1 = [0xAA; 0x00; 0x00] /\ f2 = [0xAA; 0x01; 0x02; 0x03] /\
  receive (f1 ++ f2) = (Ok [], mk WAIT_DATA 0 (f1 ++ f2) []).
Proof. repeat split. Qed.

(** ** Checksum validation *)

(** C3 (P3, checksum rejection): the property promises that a valid frame
    fed right after a candidate is recovered, whether the candidate's
    checksum matched or not.  On the code this fails when that valid frame
    has length 0: after the rejected candidate [0xAA 0x01 0x02 0x07], and
    after the accepted candidate [0xAA 0x01 0x02 0x03], the valid frame
    [0xAA 0x00 0x00] is not queued and the receiver is left in [WAIT_DATA].
    (The rest of the property, and the recovery of every following frame
    with 1 to 255 field bytes, hold: [checksum_rejection].) *)
Theorem valid_frame_after_candidate_lost :
  wire_frame [] = [0xAA; 0x00; 0x00] /\
  receive ([0xAA; 0x01; 0x02; 0x07] ++ wire_frame []) =
    (Ok [], mk WAIT_DATA 0 [0xAA; 0x00; 0x00] []) /\
  receive ([0xAA; 0x01; 0x02; 0x03] ++ wire_frame []) =
    (Ok [[0xAA; 0x01; 0x02; 0x03]], mk WAIT_DATA 0 [0xAA; 0x00; 0x00] []).
Proof. repeat split. Qed.

(** X23 (checksum test for frames that carry data): a structurally complete
    candidate [0xAA, L, payload, c] with [L >= 1] payload bytes, met in
    [WAIT_SYNC], is appended to the queue if and only if [c] is the XOR of
    the length byte and the payload bytes.  When it is not, the queue is
    unchanged and no drain of any reachable receiver ever returns the
    candidate.  In both cases the receiver is back in [WAIT_SYNC]: a valid
    frame with 1 to 255 field bytes fed right after the candidate is queued
    behind whatever the candidate left, and any bytes fed after it are
    handled exactly as a fresh receiver handles them. *)
Theorem checksum_rejection self L payload c :
  state self = WAIT_SYNC ->
  1 <= L <= 255 -> len payload = L -> Forall is_byte payload -> is_byte c ->
  let candidate := SYNC :: L :: payload ++ [c] in
  exists self',
    feed_all candidate self = (Ok tt, self') /\
    state self' = WAIT_SYNC /\
    (packets self' = packets self ++ [candidate] <-> c = xor_all (L :: payload)) /\
    (c <> xor_all (L :: payload) ->
       packets self' = packets self /\
       forall r out r', reachable r -> get_packets r = (Ok out, r') ->
                        ~ In candidate out) /\
    (forall p, Forall is_byte p -> 1 <= len p <= 255 ->
       feed_all (candidate ++ wire_frame p) self =
         (Ok tt, mk WAIT_SYNC (len p) (wire_frame p)
                    (packets self' ++ [wire_frame p]))) /\
    (forall stream,
       fst (feed_all (candidate ++ stream) self) = fst (feed_all stream init) /\
       packets (snd (feed_all (candidate ++ stream) self)) =
         packets self' ++ packets (snd (feed_all stream init))).
Proof.
  intros Hs HL Hlen Hp Hc candidate. subst L.
  pose proof (feed_all_candidate payload c self Hs Hp HL Hc) as Hfeed.
  fold candidate in Hfeed.
  eexists. split; [exact Hfeed|]. cbn [state packets].
  split; [reflexivity|]. split; [|split; [|split]].
  - destruct (Z.eqb_spec (xor_all (len payload :: payload)) c) as [E|E].
    + split; [congruence | reflexivity].
    + split; [|congruence]. intros H. symmetry in H. now apply snoc_neq in H.
  - intros Hne.
    destruct (Z.eqb_spec (xor_all (len payload :: payload)) c) as [E|E];
      [congruence|]. split; [reflexivity|].
    intros r out r' Hr Hget Hin.
    rewrite get_packets_eq in Hget. injection Hget as <- _.
    apply reachable_inv in Hr. destruct Hr as [Hq _].
    rewrite Forall_forall in Hq. apply Hq in Hin.
    apply well_formed_checksum in Hin. congruence.
  - intros p Hp' Hlen'.
    rewrite (feed_all_app _ _ _ _ Hfeed).
    now rewrite feed_all_wire_frame.
  - intros stream. rewrite (feed_all_app _ _ _ _ Hfeed).
    match goal with |- context [feed_all stream ?s] =>
      destruct (feed_all_from_wait_sync stream s eq_refl) as (H1 & _ & H2)
    end.
    split; [exact H1 | exact H2].
Qed.

Lemma checksum_rejection_witness :
  state init = WAIT_SYNC /\ 1 <= 1 <= 255 /\ len [0x02] = 1 /\
  Forall is_byte [0x02] /\ is_byte 0x07 /\
  exists self',
    feed_all [0xAA; 0x01; 0x02; 0x07] init = (Ok tt, self') /\
    state self' = WAIT_SYNC /\
    (packets self' = [[0xAA; 0x01; 0x02; 0x07]] <-> 0x07 = xor_all [0x01; 0x02]) /\
    (0x07 <> xor_all [0x01; 0x02] ->
       packets self' = [] /\
       forall r out r', reachable r -> get_packets r = (Ok out, r') ->
                        ~ In [0xAA; 0x01; 0x02; 0x07] out) /\
    (forall p, Forall is_byte p -> 1 <= len p <= 255 ->
       feed_all ([0xAA; 0x01; 0x02; 0x07] ++ wire_frame p) init =
         (Ok tt, mk WAIT_SYNC (len p) (wire_frame p)
                    (packets self' ++ [wire_frame p]))) /\
    (forall stream,
       fst (feed_all ([0xAA; 0x01; 0x02; 0x07] ++ stream) init) =
         fst (feed_all stream init) /\
       packets (snd (feed_all ([0xAA; 0x01; 0x02; 0x07] ++ stream) init)) =
         packets self' ++ packets (snd (feed_all stream init))).
Proof.
  assert (H1 : 1 <= 1 <= 255) by lia.
  assert (H2 : Forall is_byte [0x02])
    by (apply Forall_cons; [unfold is_byte; lia | apply Forall_nil]).
  assert (H3 : is_byte 0x07) by (unfold is_byte; lia).
  split; [reflexivity|]. split; [exact H1|]. split; [reflexivity|].
  split; [exact H2|]. split; [exact H3|].
  exact (checksum_rejection init 1 [0x02] 0x07 eq_refl H1 eq_refl H2 H3).
Defined.

(** ** Noise before a frame *)

(** C5 (P2, noise tolerance): bytes other than [0xAA] fed in [WAIT_SYNC] are
    discarded one by one, each leaving the receiver exactly as it was; so a
    fresh receiver fed the noise [n] and then any bytes [f] (in particular a
    valid frame) drains exactly what a fresh receiver fed [f] alone drains. *)
Theorem noise_tolerance noise f :
  Forall (fun b => b <> SYNC) noise ->
  (forall b self, In b noise -> state self = WAIT_SYNC ->
                  feed b self = (Ok tt, self)) /\
  feed_all noise init = (Ok tt, init) /\
  receive (noise ++ f) = receive f.
Proof.
  intros H. split; [|split].
  - intros b self Hin Hs. apply feed_noise; [assumption|].
    rewrite Forall_forall in H. now apply H.
  - now apply feed_all_noise.
  - unfold receive, bind.
    now rewrite (feed_all_app _ _ _ _ (feed_all_noise noise init eq_refl H)).
Qed.

Lemma noise_tolerance_witness :
  Forall (fun b => b <> SYNC) [0x00; 0xFF] /\
  receive ([0x00; 0xFF] ++ [0xAA; 0x01; 0x02; 0x03]) =
    receive [0xAA; 0x01; 0x02; 0x03].
Proof.
  assert (H : Forall (fun b => b <> SYNC) [0x00; 0xFF]).
  { apply Forall_cons; [discriminate|].
    apply Forall_cons; [discriminate | apply Forall_nil]. }
  split; [exact H|].
  exact (proj2 (proj2 (noise_tolerance [0x00; 0xFF] [0xAA; 0x01; 0x02; 0x03] H))).
Defined.

(** ** The sync value inside a frame *)

(** C6 (embedded sync byte): in [WAIT_LENGTH] and in [WAIT_DATA] the byte
    [0xAA] is consumed as the field expected there and nothing else
    happens.  In [WAIT_LENGTH] it becomes the length (170) and the receiver
    goes to [WAIT_DATA]; in [WAIT_DATA] it is appended as a payload byte and
    the receiver goes to [WAIT_CRC] exactly when the accumulator now holds
    [length + 2] bytes, and stays in [WAIT_DATA] otherwise.  Every other
    byte fed instead leads to the same state and the same queue.  So a valid
    frame with [0xAA] anywhere among its field bytes, or with [0xAA] as its
    length byte, is recovered whole; concretely [0xAA 0x01 0xAA 0xAB] and
    [0xAA 0x02 0xAA 0x01 0xA9] each drain as one frame. *)
Theorem sync_byte_inside_frame self :
  state self = WAIT_LENGTH \/ state self = WAIT_DATA ->
  feed 0xAA self =
    (Ok tt,
     match state self with
     | WAIT_LENGTH =>
         mk WAIT_DATA 0xAA (data self ++ [0xAA]) (packets self)
     | _ =>
         mk (if len (data self) + 1 =? length self + 2
             then WAIT_CRC else WAIT_DATA)
            (length self) (data self ++ [0xAA]) (packets self)
     end) /\
  (forall byte, is_byte byte ->
     fst (feed byte self) = fst (feed 0xAA self) /\
     state (snd (feed byte self)) = state (snd (feed 0xAA self)) /\
     packets (snd (feed byte self)) = packets (snd (feed 0xAA self)) /\
     data (snd (feed byte self)) = data self ++ [byte]) /\
  (forall before after,
     Forall is_byte before -> Forall is_byte after ->
     len before + len after <= 254 ->
     fst (receive (wire_frame (before ++ 0xAA :: after))) =
       Ok [wire_frame (before ++ 0xAA :: after)]) /\
  (forall p, Forall is_byte p -> len p = 0xAA ->
     fst (receive (wire_frame p)) = Ok [wire_frame p]) /\
  fst (receive [0xAA; 0x01; 0xAA; 0xAB]) = Ok [[0xAA; 0x01; 0xAA; 0xAB]] /\
  fst (receive [0xAA; 0x02; 0xAA; 0x01; 0xA9]) =
    Ok [[0xAA; 0x02; 0xAA; 0x01; 0xA9]].
Proof.
  assert (Hb : is_byte 0xAA) by (unfold is_byte; lia).
  assert (Hlen : forall b, len (data self ++ [b]) = len (data self) + 1)
    by (intros b; rewrite len_app; reflexivity).
  intros Hs. split; [|split; [|split; [|split; [|split; reflexivity]]]].
  - destruct Hs as [Hs|Hs]; rewrite Hs.
    + now apply feed_length.
    + rewrite <- (Hlen 170). now apply feed_data.
  - intros byte Hbyte. destruct Hs as [Hs|Hs].
    + rewrite (feed_length byte self Hs Hbyte), (feed_length 170 self Hs Hb).
      cbn [fst snd state data packets]. auto.
    + rewrite (feed_data byte self Hs Hbyte), (feed_data 170 self Hs Hb).
      cbn [fst snd state data packets]. rewrite !Hlen. auto.
  - intros before after Hbefore Hafter Hsum.
    pose proof (len_nonneg before). pose proof (len_nonneg after).
    apply receive_wire_frame.
    + apply Forall_app. split; [assumption|]. now constructor.
    + rewrite len_app, len_cons. lia.
  - intros p Hp Hl. apply receive_wire_frame; [assumption | lia].
Qed.

Lemma sync_byte_inside_frame_witness :
  (state (mk WAIT_DATA 2 [0xAA; 0x02] []) = WAIT_LENGTH \/
   state (mk WAIT_DATA 2 [0xAA; 0x02] []) = WAIT_DATA) /\
  feed 0xAA (mk WAIT_DATA 2 [0xAA; 0x02] []) =
    (Ok tt, mk WAIT_DATA 2 [0xAA; 0x02; 0xAA] []) /\
  fst (receive [0xAA; 0x02; 0xAA; 0x01; 0xA9]) =
    Ok [[0xAA; 0x02; 0xAA; 0x01; 0xA9]].
Proof.
  assert (H : state (mk WAIT_DATA 2 [0xAA; 0x02] []) = WAIT_LENGTH \/
              state (mk WAIT_DATA 2 [0xAA; 0x02] []) = WAIT_DATA)
    by (right; reflexivity).
  split; [exact H|].
  destruct (sync_byte_inside_frame (mk WAIT_DATA 2 [0xAA; 0x02] []) H)
    as (Hfeed & _ & _ & _ & _ & Hrecv).
  split; [exact Hfeed | exact Hrecv].
Defined.

(** ** Totality of [feed] *)

(** C7: for a byte in 0..255 and a reachable receiver, [feed] returns (it
    does not raise), and what it did is one of three things: it discarded the
    byte and left the receiver as it was; it advanced the state machine,
    starting or extending the accumulator with the byte and leaving the
    queue alone; or it appended the accumulated bytes, a well-formed frame,
    to the queue and went back to [WAIT_SYNC]. *)
Theorem feed_total byte self :
  is_byte byte -> reachable self ->
  exists self',
    feed byte self = (Ok tt, self') /\
    ((state self = WAIT_SYNC /\ byte <> SYNC /\ self' = self) \/
     (packets self' = packets self /\
      ((state self = WAIT_SYNC /\ state self' = WAIT_LENGTH /\
        data self' = [byte]) \/
       (state self <> WAIT_SYNC /\ data self' = data self ++ [byte]))) \/
     (state self = WAIT_CRC /\ state self' = WAIT_SYNC /\
      packets self' = packets self ++ [data self ++ [byte]] /\
      well_formed (data self ++ [byte]) = true)).
Proof.
  intros Hb Hr. apply reachable_inv in Hr.
  pose proof (inv_feed byte self Hr) as [Hq' _].
  destruct (state self) eqn:Hs.
  - destruct (Z.eq_dec byte SYNC) as [->|Hne].
    + rewrite feed_sync by assumption. eexists. split; [reflexivity|].
      right; left. cbn. split; [reflexivity|]. left. auto.
    + rewrite feed_noise by assumption. eexists. split; [reflexivity|].
      left. auto.
  - rewrite feed_length by assumption. eexists. split; [reflexivity|].
    right; left. cbn. split; [reflexivity|]. right. split; [discriminate|reflexivity].
  - rewrite feed_data by assumption. eexists. split; [reflexivity|].
    right; left. cbn. split; [reflexivity|]. right. split; [discriminate|reflexivity].
  - rewrite feed_crc in * by assumption. eexists. split; [reflexivity|].
    cbn [state length data packets snd] in *.
    destruct (xor_all (slice (data self ++ [byte]) 1 (-1)) =? byte).
    + right; right. repeat split.
      apply Forall_app in Hq'. destruct Hq' as [_ Hq'].
      now inversion Hq'.
    + right; left. split; [reflexivity|]. right.
      split; [discriminate|reflexivity].
Qed.

Lemma feed_total_witness :
  is_byte 0x03 /\ reachable (snd (feed_all [0xAA; 0x01; 0x02] init)) /\
  exists self',
    feed 0x03 (snd (feed_all [0xAA; 0x01; 0x02] init)) = (Ok tt, self') /\
    packets self' = [[0xAA; 0x01; 0x02; 0x03]].
Proof.
  assert (Hb : is_byte 0x03) by (unfold is_byte; lia).
  assert (Hr : reachable (snd (feed_all [0xAA; 0x01; 0x02] init))).
  { exact (reach_feed 0x02 _ (reach_feed 0x01 _ (reach_feed 0xAA _ reach_init))). }
  split; [exact Hb|]. split; [exact Hr|].
  destruct (feed_total 0x03 _ Hb Hr) as [self' [Hfeed _]].
  exists self'. split; [exact Hfeed|].
  cbv in Hfeed. injection Hfeed as <-. reflexivity.
Defined.

(** ** Draining the queue *)

Lemma run_drains calls : forall self,
  Forall is_byte (fed calls) ->
  exists outs self1 self2,
    run calls self = (Ok outs, self1) /\
    feed_all (fed calls) self = (Ok tt, self2) /\
    concat outs ++ packets self1 = packets self2.
Proof.
  induction calls as [|[b|] calls IH]; intros self H.
  - exists [], self, self. repeat split.
  - cbn [fed] in H. inversion H as [|? ? Hb Hbs]; subst.
    destruct (feed_ok b self Hb) as [s1 H1].
    destruct (IH s1 Hbs) as (outs & self1 & self2 & Hrun & Hfeed & Hq).
    exists outs, self1, self2. cbn [run fed feed_all]. unfold bind.
    rewrite H1. auto.
  - cbn [fed] in H.
    destruct (IH (snd (get_packets self)) H)
      as (outs & self1 & self2 & Hrun & Hfeed & Hq).
    exists (packets self :: outs), self1, (with_queued (packets self) self2).
    split; [|split].
    + cbn [run]. unfold bind at 1. rewrite get_packets_eq.
      rewrite get_packets_eq in Hrun. cbn [snd] in Hrun.
      unfold bind. now rewrite Hrun.
    + cbn [fed].
      replace self
        with (with_queued (packets self) (snd (get_packets self))) at 1.
      * rewrite feed_all_with_queued, Hfeed. reflexivity.
      * destruct self; unfold with_queued; cbn. now rewrite app_nil_r.
    + cbn [concat with_queued packets]. now rewrite <- app_assoc, Hq.
Qed.

(** C8: [get_packets] returns the queue as it stands, oldest frame first,
    and leaves an empty queue behind, so a second call with no [feed] in
    between returns the empty list.  Over any sequence of [feed] and
    [get_packets] calls, the lists returned by the drains, put end to end and
    followed by what is still queued, are exactly the queue a receiver
    builds from the same bytes when it is never drained: every completed
    frame is returned once, by the first drain after it completed, in
    completion order. *)
Theorem get_packets_drains self calls :
  Forall is_byte (fed calls) ->
  get_packets self =
    (Ok (packets self), mk (state self) (length self) (data self) []) /\
  fst (get_packets (snd (get_packets self))) = Ok [] /\
  exists outs self1 self2,
    run calls self = (Ok outs, self1) /\
    feed_all (fed calls) self = (Ok tt, self2) /\
    concat outs ++ packets self1 = packets self2.
Proof.
  intros H. split; [reflexivity|]. split; [reflexivity|].
  now apply run_drains.
Qed.

Lemma get_packets_drains_witness :
  Forall is_byte
    (fed [Feed 0xAA; Feed 0x01; Feed 0x02; Feed 0x03; GetPackets; GetPackets]) /\
  exists outs self1,
    run [Feed 0xAA; Feed 0x01; Feed 0x02; Feed 0x03; GetPackets; GetPackets] init
      = (Ok outs, self1) /\
    outs = [[[0xAA; 0x01; 0x02; 0x03]]; []].
Proof.
  assert (H : Forall is_byte
    (fed [Feed 0xAA; Feed 0x01; Feed 0x02; Feed 0x03; GetPackets; GetPackets])).
  { cbn [fed]. repeat (apply Forall_cons; [unfold is_byte; lia|]). apply Forall_nil. }
  split; [exact H|].
  destruct (get_packets_drains init _ H) as (_ & _ & outs & self1 & _ & Hrun & _).
  exists outs, self1. split; [exact Hrun|].
  cbv in Hrun. injection Hrun as <- _. reflexivity.
Defined.

(** ** Whole-buffer encoder and parser *)

(** C9: for a command byte and a payload of at most 254 bytes,
    [build_packet] returns a packet (no append raises) and [parse_packet]
    of that packet returns the pair of the command and the payload, not
    [None]. *)
Theorem parse_build_roundtrip cmd payload :
  is_byte cmd -> Forall is_byte payload -> len payload <= 254 ->
  exists packet,
    build_packet cmd payload = Some packet /\
    parse_packet packet = Some (cmd, payload).
Proof.
  intros Hc Hp Hlen. exists (wire_frame (cmd :: payload)).
  split; [now apply build_packet_wire_frame|].
  pose proof (len_nonneg payload) as H0.
  unfold wire_frame. rewrite len_cons.
  set (n := len payload + 1).
  set (crc := xor_all (n :: cmd :: payload)).
  assert (Hlen' : len (SYNC :: n :: (cmd :: payload) ++ [crc]) = n + 3).
  { rewrite !len_cons, len_app, len_cons. change (len [crc]) with 1. lia. }
  unfold parse_packet. rewrite Hlen'.
  destruct (Z.ltb_spec (n + 3) 4); [lia|].
  rewrite getitem_0. change (negb (SYNC =? 170)) with false. cbv iota.
  rewrite getitem_1. rewrite Z.ltb_irrefl.
  replace (getitem (SYNC :: n :: (cmd :: payload) ++ [crc]) (-1)) with (Some crc)
    by (symmetry; apply (getitem_last (SYNC :: n :: cmd :: payload) crc)).
  replace (slice (SYNC :: n :: (cmd :: payload) ++ [crc]) 1 (-1))
    with (n :: cmd :: payload)
    by (symmetry; apply (slice_1_m1 SYNC (n :: cmd :: payload) crc)).
  replace (slice (SYNC :: n :: (cmd :: payload) ++ [crc]) 3 (-1)) with payload
    by (symmetry; apply (slice_middle [SYNC; n; cmd] payload crc)).
  cbn [app]. rewrite getitem_2. fold crc. rewrite Z.eqb_refl. reflexivity.
Qed.

Lemma parse_build_roundtrip_witness :
  is_byte 0x01 /\ Forall is_byte [0x10; 0x20] /\ len [0x10; 0x20] <= 254 /\
  exists packet,
    build_packet 0x01 [0x10; 0x20] = Some packet /\
    parse_packet packet = Some (0x01, [0x10; 0x20]).
Proof.
  assert (Hc : is_byte 0x01) by (unfold is_byte; lia).
  assert (Hp : Forall is_byte [0x10; 0x20]).
  { repeat (apply Forall_cons; [unfold is_byte; lia|]). apply Forall_nil. }
  assert (Hl : len [0x10; 0x20] <= 254) by (cbn; lia).
  split; [exact Hc|]. split; [exact Hp|]. split; [exact Hl|].
  exact (parse_build_roundtrip 0x01 [0x10; 0x20] Hc Hp Hl).
Defined.

(** ** Well-formed queue *)

(** C10: in every reachable state of the receiver each queued frame [f]
    has [f[0] = 0xAA], [len(f) = f[1] + 3] and a last byte equal to the XOR
    of [f[1:-1]]; this still holds after one more [feed] of any integer and
    after [get_packets], both for the list it returns and for the queue it
    leaves. *)
Theorem queued_frames_well_formed self :
  reachable self ->
  (forall f, In f (packets self) -> frame_shape f) /\
  (forall byte f, In f (packets (snd (feed byte self))) -> frame_shape f) /\
  (forall out self', get_packets self = (Ok out, self') ->
     (forall f, In f out -> frame_shape f) /\
     (forall f, In f (packets self') -> frame_shape f)).
Proof.
  intros Hr. apply reachable_inv in Hr.
  assert (Hall : forall s, inv s -> forall f, In f (packets s) -> frame_shape f).
  { intros s [Hq _] f Hin. rewrite Forall_forall in Hq.
    now apply well_formed_shape, Hq. }
  split; [now apply Hall|]. split.
  - intros byte. apply Hall. now apply inv_feed.
  - intros out self' Hget. rewrite get_packets_eq in Hget.
    injection Hget as <- <-. split; [now apply Hall|].
    cbn [packets]. intros f [].
Qed.

Lemma queued_frames_well_formed_witness :
  reachable (snd (feed_all [0xAA; 0x01; 0x02; 0x03] init)) /\
  packets (snd (feed_all [0xAA; 0x01; 0x02; 0x03] init)) = [[0xAA; 0x01; 0x02; 0x03]] /\
  frame_shape [0xAA; 0x01; 0x02; 0x03].
Proof.
  assert (Hr : reachable (snd (feed_all [0xAA; 0x01; 0x02; 0x03] init))).
  { exact (reach_feed 0x03 _
             (reach_feed 0x02 _ (reach_feed 0x01 _ (reach_feed 0xAA _ reach_init)))). }
  split; [exact Hr|]. split; [reflexivity|].
  apply (proj1 (queued_frames_well_formed _ Hr)).
  left. reflexivity.
Defined.

(** * Further properties of the receiver *)

(** ** Streams of frames separated by noise *)

Lemma feed_all_noisy_stream items : forall self,
  state self = WAIT_SYNC ->
  Forall (fun it => Forall (fun b => b <> SYNC) (fst it) /\
                    Forall is_byte (snd it) /\ 1 <= len (snd it) <= 255) items ->
  exists self',
    feed_all (noisy_stream items) self = (Ok tt, self') /\
    state self' = WAIT_SYNC /\
    packets self' = packets self ++ map (fun it => wire_frame (snd it)) items.
Proof.
  induction items as [|[noise p] items IH]; intros self Hs H.
  - exists self. cbn. rewrite app_nil_r. auto.
  - inversion H as [|? ? (Hn & Hp & Hl) Hrest]; subst. cbn [fst snd] in *.
    unfold noisy_stream. cbn [flat_map fst snd]. fold (noisy_stream items).
    rewrite <- app_assoc.
    rewrite (feed_all_app _ _ _ _ (feed_all_noise noise self Hs Hn)).
    rewrite (feed_all_app _ _ _ _ (feed_all_wire_frame p self Hs Hp Hl)).
    destruct (IH (mk WAIT_SYNC (len p) (wire_frame p) (packets self ++ [wire_frame p]))
                 eq_refl Hrest) as (self' & Hfeed & Hs' & Hq).
    exists self'. split; [exact Hfeed|]. split; [exact Hs'|].
    rewrite Hq. cbn [packets map snd]. now rewrite <- app_assoc.
Qed.

(** X1: a stream of any number of frames (1 to 255 field bytes each), every
    frame preceded by any number of bytes other than [0xAA] and the last one
    followed by such bytes, is recovered exactly: one drain returns the
    frames, all of them, in order. *)
Theorem receive_noisy_stream items trailing :
  Forall (fun it => Forall (fun b => b <> SYNC) (fst it) /\
                    Forall is_byte (snd it) /\ 1 <= len (snd it) <= 255) items ->
  Forall (fun b => b <> SYNC) trailing ->
  fst (receive (noisy_stream items ++ trailing)) =
    Ok (map (fun it => wire_frame (snd it)) items).
Proof.
  intros H Ht.
  destruct (feed_all_noisy_stream items init eq_refl H) as (s1 & Hfeed & Hs & Hq).
  erewrite receive_eq; cycle 1.
  { rewrite (feed_all_app _ _ _ _ Hfeed). now apply feed_all_noise. }
  now rewrite Hq.
Qed.

Lemma receive_noisy_stream_witness :
  Forall (fun it => Forall (fun b => b <> SYNC) (fst it) /\
                    Forall is_byte (snd it) /\ 1 <= len (snd it) <= 255)
         [([0x00; 0xFF], [0x01; 0x55]); ([0x00], [0x02])] /\
  Forall (fun b => b <> SYNC) [0x00] /\
  fst (receive ([0x00; 0xFF; 0xAA; 0x02; 0x01; 0x55; 0x56;
                 0x00; 0xAA; 0x01; 0x02; 0x03] ++ [0x00])) =
    Ok [[0xAA; 0x02; 0x01; 0x55; 0x56]; [0xAA; 0x01; 0x02; 0x03]].
Proof.
  assert (H : Forall (fun it => Forall (fun b => b <> SYNC) (fst it) /\
                    Forall is_byte (snd it) /\ 1 <= len (snd it) <= 255)
         [([0x00; 0xFF], [0x01; 0x55]); ([0x00], [0x02])]).
  { repeat apply Forall_cons; try apply Forall_nil; cbn [fst snd];
      (split; [|split]);
      repeat apply Forall_cons; try apply Forall_nil;
      try discriminate; unfold is_byte; cbn; lia. }
  assert (Ht : Forall (fun b => b <> SYNC) [0x00]).
  { apply Forall_cons; [discriminate | apply Forall_nil]. }
  split; [exact H|]. split; [exact Ht|].
  exact (receive_noisy_stream _ [0x00] H Ht).
Defined.

(** ** Delivered frames are segments of the stream *)

Lemma embeds_skip_app pre fs s : embeds fs s -> embeds fs (pre ++ s).
Proof. intros H. induction pre; cbn; [assumption | now constructor]. Qed.

(** What one [feed] does to the queue and to the bytes held back. *)
Lemma feed_emits byte self :
  exists emitted,
    packets (snd (feed byte self)) = packets self ++ emitted /\
    (emitted = [] /\
     (fst (feed byte self) = ValueError \/
      exists skipped,
        pending self ++ [byte] = skipped ++ pending (snd (feed byte self))) \/
     emitted = [pending self ++ [byte]] /\
     fst (feed byte self) = Ok tt /\ pending (snd (feed byte self)) = []).
Proof.
  destruct self as [s n d q]. unfold pending. destruct s; run_feed.
  - exists []. rewrite app_nil_r.
    destruct (Z.eqb_spec byte 170) as [->|]; cbn [fst snd state data packets];
      (split; [reflexivity|]); left; (split; [reflexivity|]); right.
    + now exists [].
    + exists [byte]. now rewrite app_nil_r.
  - exists []. rewrite app_nil_r.
    destruct (in_range byte); cbn [fst snd state data packets];
      (split; [reflexivity|]); left; (split; [reflexivity|]); [right | now left].
    now exists [].
  - exists []. rewrite app_nil_r.
    destruct (in_range byte); cbn [fst snd state data packets];
      [|split; [reflexivity|]; left; split; [reflexivity | now left]].
    destruct (len (d ++ [byte]) =? n + 2); cbn [fst snd state data packets];
      (split; [reflexivity|]); left; (split; [reflexivity|]); right; now exists [].
  - destruct (in_range byte); cbn [fst snd state data packets];
      [|exists []; rewrite app_nil_r; split; [reflexivity|];
        left; split; [reflexivity | now left]].
    destruct (xor_all (slice (d ++ [byte]) 1 (-1)) =? byte);
      cbn [fst snd state data packets].
    + exists [d ++ [byte]]. split; [reflexivity|]. right. auto.
    + exists []. rewrite app_nil_r. split; [reflexivity|]. left.
      split; [reflexivity|]. right. exists (d ++ [byte]). now rewrite app_nil_r.
Qed.

Lemma feed_all_embeds stream : forall self,
  exists new,
    packets (snd (feed_all stream self)) = packets self ++ new /\
    embeds new (pending self ++ stream).
Proof.
  induction stream as [|b bs IH]; intros self.
  - exists []. cbn. rewrite app_nil_r. split; [reflexivity | constructor].
  - cbn [feed_all]. unfold bind.
    destruct (feed_emits b self) as (emitted & Hq & Hcase).
    destruct (IH (snd (feed b self))) as (new & Hq' & Hemb).
    replace (pending self ++ b :: bs) with ((pending self ++ [b]) ++ bs)
      by now rewrite <- app_assoc.
    destruct (feed b self) as [[[]|] s1]; cbn [fst snd] in *.
    + destruct Hcase as [(-> & [Hv | (skipped & Hsk)]) | (-> & _ & Hp)].
      * discriminate.
      * exists new. rewrite Hq', Hq, app_nil_r. split; [reflexivity|].
        rewrite Hsk, <- app_assoc. now apply embeds_skip_app.
      * exists ((pending self ++ [b]) :: new).
        rewrite Hq', Hq, <- app_assoc. split; [reflexivity|].
        rewrite Hp in Hemb. now constructor.
    + exists []. destruct Hcase as [(-> & _) | (_ & Hv & _)]; [|discriminate].
      rewrite Hq. split; [reflexivity | constructor].
Qed.

(** X2: whatever integers are fed to a fresh receiver, the frames in its
    queue are segments of the fed stream: they occur in it one after the
    other, in queue order, without overlapping.  The receiver never invents,
    reorders or merges bytes. *)
Theorem delivered_frames_embedded stream :
  embeds (packets (snd (feed_all stream init))) stream.
Proof.
  destruct (feed_all_embeds stream init) as (new & Hq & Hemb).
  rewrite Hq. exact Hemb.
Qed.

(** ** Sizes *)

Lemma sized_init : sized init.
Proof. split; [constructor | cbn; lia]. Qed.

Lemma len_snoc {A} (l : list A) x : len (l ++ [x]) = len l + 1.
Proof. rewrite len_app. reflexivity. Qed.

Lemma sized_feed byte self : sized self -> sized (snd (feed byte self)).
Proof.
  destruct self as [s n d q]. unfold sized. cbn [state length data packets].
  intros [Hq Hs]. destruct s; run_feed.
  - destruct (byte =? 170); cbn [snd state length data packets];
      (split; [assumption|]); [reflexivity | assumption].
  - destruct (in_range byte) eqn:Hb; cbn [snd state length data packets];
      (split; [assumption|]); [|assumption].
    apply in_range_spec in Hb. rewrite len_snoc. unfold is_byte in *. lia.
  - destruct Hs as (Hn & Hd & Hlt).
    destruct (in_range byte); cbn [snd state length data packets];
      [|split; [assumption | auto]].
    rewrite len_snoc.
    destruct (Z.eqb_spec (len d + 1) (n + 2));
      cbn [snd state length data packets]; (split; [assumption|]);
      rewrite ?len_snoc; (split; [assumption|]); split; intros; lia.
  - destruct Hs as (Hn & Hd & H3).
    destruct (in_range byte); cbn [snd state length data packets];
      [|split; [assumption | auto]].
    assert (Hl : 4 <= len (d ++ [byte]) <= 258)
      by (rewrite len_snoc; unfold is_byte in Hn; lia).
    destruct (xor_all (slice (d ++ [byte]) 1 (-1)) =? byte);
      cbn [snd state length data packets]; (split; [|lia]); [|assumption].
    apply Forall_app. split; [assumption|]. now constructor.
Qed.

Lemma sized_get_packets self : sized self -> sized (snd (get_packets self)).
Proof.
  destruct self as [s n d q]. intros [Hq Hs]. split; [constructor | exact Hs].
Qed.

Lemma reachable_sized self : reachable self -> sized self.
Proof.
  induction 1; [apply sized_init | now apply sized_feed | now apply sized_get_packets].
Qed.

Lemma sized_feed_all stream : forall self,
  sized self -> sized (snd (feed_all stream self)).
Proof.
  induction stream as [|b bs IH]; intros self H; [exact H|].
  cbn [feed_all]. unfold bind.
  pose proof (sized_feed b self H) as H1.
  destruct (feed b self) as [[[]|] s1]; cbn [snd] in *; [now apply IH | assumption].
Qed.

(** X3: in every reachable state each queued frame has between 4 and 258
    bytes, and the accumulator holds more than 258 bytes only in the state
    a zero length byte leaves behind ([WAIT_DATA] with [length = 0]); in all
    other states a buffer of 258 bytes is enough for it. *)
Theorem accumulator_bounded self :
  reachable self ->
  (forall f, In f (packets self) -> 4 <= len f <= 258) /\
  (258 < len (data self) -> state self = WAIT_DATA /\ length self = 0).
Proof.
  intros Hr. apply reachable_sized in Hr. destruct Hr as [Hq Hs].
  split.
  - rewrite Forall_forall in Hq. exact Hq.
  - intros Hbig. unfold is_byte in Hs.
    destruct (state self); try lia.
    split; [reflexivity|].
    destruct (Z.eq_dec (length self) 0); [assumption | lia].
Qed.

Lemma accumulator_bounded_witness :
  reachable (snd (feed_all [0xAA; 0x01; 0x02; 0x03] init)) /\
  (forall f, In f (packets (snd (feed_all [0xAA; 0x01; 0x02; 0x03] init))) ->
             4 <= len f <= 258).
Proof.
  assert (Hr : reachable (snd (feed_all [0xAA; 0x01; 0x02; 0x03] init))).
  { exact (reach_feed 0x03 _
             (reach_feed 0x02 _ (reach_feed 0x01 _ (reach_feed 0xAA _ reach_init)))). }
  split; [exact Hr|].
  exact (proj1 (accumulator_bounded _ Hr)).
Defined.

Lemma embeds_len fs : forall s,
  embeds fs s -> Forall (fun f => 4 <= len f <= 258) fs -> 4 * len fs <= len s.
Proof.
  intros s H. induction H as [s | b fs s H IH | f fs s H IH]; intros Hf.
  - change (len (@nil (list Z))) with 0. pose proof (len_nonneg s). lia.
  - rewrite len_cons. specialize (IH Hf). lia.
  - inversion Hf; subst. rewrite len_cons, len_app.
    specialize (IH ltac:(assumption)). lia.
Qed.

(** X4: a frame costs at least four bytes of input: after any stream fed to
    a fresh receiver, four times the number of queued frames is at most the
    number of bytes fed. *)
Theorem frames_per_byte stream :
  4 * len (packets (snd (feed_all stream init))) <= len stream.
Proof.
  pose proof (sized_feed_all stream init sized_init) as [Hq _].
  destruct (feed_all_embeds stream init) as (new & Hnew & Hemb).
  rewrite Hnew in *. cbn [packets init app] in *.
  now apply embeds_len.
Qed.

(** ** A zero length byte *)

(** X5: a length byte of 0 puts the receiver out of service.  From
    [WAIT_SYNC], after [0xAA 0x00] every further byte is appended to the
    accumulator, the state stays [WAIT_DATA] and the queue never grows,
    whatever bytes follow (valid frames included). *)
Theorem zero_length_byte_wedges self stream :
  state self = WAIT_SYNC -> Forall is_byte stream ->
  feed_all (SYNC :: 0 :: stream) self =
    (Ok tt, mk WAIT_DATA 0 (SYNC :: 0 :: stream) (packets self)).
Proof.
  intros Hs Hb.
  rewrite (feed_all_cons _ _ _ _ (feed_sync self Hs)).
  erewrite feed_all_cons
    by (apply feed_length; [reflexivity | unfold is_byte; lia]).
  rewrite feed_all_wedged; cbn [state length data packets app]; auto.
  unfold len. cbn. lia.
Qed.

Lemma zero_length_byte_wedges_witness :
  state init = WAIT_SYNC /\ Forall is_byte [0xAA; 0x01; 0x02; 0x03] /\
  feed_all (SYNC :: 0 :: [0xAA; 0x01; 0x02; 0x03]) init =
    (Ok tt, mk WAIT_DATA 0 (SYNC :: 0 :: [0xAA; 0x01; 0x02; 0x03]) []).
Proof.
  assert (H : Forall is_byte [0xAA; 0x01; 0x02; 0x03]).
  { repeat (apply Forall_cons; [unfold is_byte; lia|]). apply Forall_nil. }
  split; [reflexivity|]. split; [exact H|].
  exact (zero_length_byte_wedges init _ eq_refl H).
Defined.

(** ** Integers that are not bytes *)

(** X6: an integer outside 0..255 is ignored without error in [WAIT_SYNC];
    in every other state [feed] raises [ValueError] from
    [bytearray.append], and the receiver keeps its state, accumulator and
    queue, so the frame in progress can still be completed. *)
Theorem feed_not_a_byte byte self :
  ~ is_byte byte ->
  (state self = WAIT_SYNC -> feed byte self = (Ok tt, self)) /\
  (state self <> WAIT_SYNC ->
     fst (feed byte self) = ValueError /\
     state (snd (feed byte self)) = state self /\
     data (snd (feed byte self)) = data self /\
     packets (snd (feed byte self)) = packets self).
Proof.
  intros Hb. split.
  - intros Hs. apply feed_noise; [assumption|].
    intros ->. apply Hb. unfold is_byte, SYNC. lia.
  - intros Hs.
    assert (Hr : in_range byte = false).
    { destruct (in_range byte) eqn:E; [|reflexivity].
      apply in_range_spec in E. contradiction. }
    destruct self as [s n d q]. cbn [state] in Hs.
    destruct s; [contradiction| | |]; run_feed; rewrite Hr; cbn; auto.
Qed.

Lemma feed_not_a_byte_witness :
  ~ is_byte 256 /\
  fst (feed 256 (mk WAIT_DATA 2 [0xAA; 0x02] [])) = ValueError /\
  data (snd (feed 256 (mk WAIT_DATA 2 [0xAA; 0x02] []))) = [0xAA; 0x02].
Proof.
  assert (H : ~ is_byte 256) by (unfold is_byte; lia).
  split; [exact H|].
  destruct (proj2 (feed_not_a_byte 256 (mk WAIT_DATA 2 [0xAA; 0x02] []) H))
    as (H1 & _ & H2 & _); [discriminate|].
  split; [exact H1 | exact H2].
Defined.

(** * Further properties of [build_packet] and [parse_packet] *)

Lemma fold_lxor_acc xs : forall acc,
  fold_left Z.lxor xs acc = Z.lxor acc (xor_all xs).
Proof.
  unfold xor_all. induction xs as [|x xs IH]; intros acc; cbn [fold_left].
  - now rewrite Z.lxor_0_r.
  - rewrite IH, (IH (Z.lxor 0 x)), Z.lxor_0_l. now rewrite Z.lxor_assoc.
Qed.

Lemma xor_all_cons x xs : xor_all (x :: xs) = Z.lxor x (xor_all xs).
Proof. unfold xor_all at 1. cbn [fold_left]. now rewrite fold_lxor_acc, Z.lxor_0_l. Qed.

Lemma xor_all_concat xs ys : xor_all (xs ++ ys) = Z.lxor (xor_all xs) (xor_all ys).
Proof. unfold xor_all at 1. rewrite fold_left_app. apply fold_lxor_acc. Qed.

(** A body followed by its own XOR sums to zero. *)
Lemma xor_all_with_checksum xs : xor_all (xs ++ [xor_all xs]) = 0.
Proof.
  rewrite xor_all_concat, (xor_all_cons _ []).
  change (xor_all []) with 0. now rewrite Z.lxor_0_r, Z.lxor_nilpotent.
Qed.

Lemma parse_packet_accepts L cmd payload :
  L <= len payload + 1 ->
  parse_packet (SYNC :: L :: cmd :: payload ++ [xor_all (L :: cmd :: payload)])
    = Some (cmd, payload).
Proof.
  intros HL. pose proof (len_nonneg payload) as H0.
  set (crc := xor_all (L :: cmd :: payload)).
  assert (Hlen : len (SYNC :: L :: cmd :: payload ++ [crc]) = len payload + 4).
  { rewrite !len_cons, len_snoc. lia. }
  unfold parse_packet. rewrite Hlen.
  destruct (Z.ltb_spec (len payload + 4) 4); [lia|].
  rewrite getitem_0. change (negb (SYNC =? 170)) with false. cbv iota.
  rewrite getitem_1.
  destruct (Z.ltb_spec (len payload + 4) (L + 3)); [lia|].
  replace (getitem (SYNC :: L :: cmd :: payload ++ [crc]) (-1)) with (Some crc)
    by (symmetry; apply (getitem_last (SYNC :: L :: cmd :: payload) crc)).
  replace (slice (SYNC :: L :: cmd :: payload ++ [crc]) 1 (-1))
    with (L :: cmd :: payload)
    by (symmetry; apply (slice_1_m1 SYNC (L :: cmd :: payload) crc)).
  replace (slice (SYNC :: L :: cmd :: payload ++ [crc]) 3 (-1)) with payload
    by (symmetry; apply (slice_middle [SYNC; L; cmd] payload crc)).
  rewrite getitem_2. fold crc. rewrite Z.eqb_refl. reflexivity.
Qed.

Lemma parse_packet_accepted data cmd payload :
  parse_packet data = Some (cmd, payload) ->
  exists L,
    data = SYNC :: L :: cmd :: payload ++ [xor_all (L :: cmd :: payload)] /\
    L <= len payload + 1.
Proof.
  destruct data as [|a [|L [|c [|e tail]]]]; try discriminate.
  destruct (exists_last (l := e :: tail) ltac:(discriminate)) as (mid & last & E).
  rewrite E. clear E e tail.
  assert (Hlen : len (a :: L :: c :: mid ++ [last]) = len mid + 4).
  { rewrite !len_cons, len_snoc. lia. }
  unfold parse_packet. rewrite Hlen.
  destruct (len mid + 4 <? 4); [discriminate|].
  rewrite getitem_0. destruct (Z.eqb_spec a 170) as [->|]; [|discriminate].
  cbn [negb]. rewrite getitem_1.
  destruct (Z.ltb_spec (len mid + 4) (L + 3)); [discriminate|].
  replace (getitem (170 :: L :: c :: mid ++ [last]) (-1)) with (Some last)
    by (symmetry; apply (getitem_last (170 :: L :: c :: mid) last)).
  replace (slice (170 :: L :: c :: mid ++ [last]) 1 (-1)) with (L :: c :: mid)
    by (symmetry; apply (slice_1_m1 170 (L :: c :: mid) last)).
  replace (slice (170 :: L :: c :: mid ++ [last]) 3 (-1)) with mid
    by (symmetry; apply (slice_middle [170; L; c] mid last)).
  rewrite getitem_2.
  destruct (Z.eqb_spec (xor_all (L :: c :: mid)) last) as [<-|]; [|discriminate].
  cbn [negb]. intros Hret. injection Hret as <- <-.
  exists L. split; [reflexivity | lia].
Qed.

(** X7: [parse_packet] returns [(cmd, payload)] exactly for the buffers
    [0xAA, L, cmd, payload..., x] whose last byte [x] is the XOR of all
    bytes between the sync byte and itself and whose length byte [L] is at
    most [len(payload) + 1].  The length byte is only a lower bound on the
    buffer: a buffer longer than it announces is accepted, extra bytes going
    into the payload. *)
Theorem parse_packet_characterised data cmd payload :
  parse_packet data = Some (cmd, payload) <->
  exists L,
    data = SYNC :: L :: cmd :: payload ++ [xor_all (L :: cmd :: payload)] /\
    L <= len payload + 1.
Proof.
  split; [apply parse_packet_accepted|].
  intros (L & -> & HL). now apply parse_packet_accepts.
Qed.

Lemma lxor_cancel_l k x y : Z.lxor k x = Z.lxor k y -> x = y.
Proof.
  intros H. apply (f_equal (Z.lxor k)) in H.
  now rewrite <- !Z.lxor_assoc, Z.lxor_nilpotent, !Z.lxor_0_l in H.
Qed.

(** X8: the XOR checksum catches every change of a single byte: if
    [parse_packet] accepts a buffer, it returns [None] for the buffer with
    any one byte replaced by a different value (sync, length, command,
    payload or checksum byte alike). *)
Theorem parse_packet_detects_byte_change a x y b :
  parse_packet (a ++ x :: b) <> None -> x <> y ->
  parse_packet (a ++ y :: b) = None.
Proof.
  intros Hok Hxy.
  destruct (parse_packet (a ++ x :: b)) as [[c p]|] eqn:E; [|congruence].
  destruct (parse_packet (a ++ y :: b)) as [[c' p']|] eqn:E'; [|reflexivity].
  exfalso.
  apply parse_packet_accepted in E. destruct E as (L & E & _).
  apply parse_packet_accepted in E'. destruct E' as (L' & E' & _).
  destruct a as [|a0 a]; cbn [app] in E, E'.
  - injection E as -> _. injection E' as -> _. now apply Hxy.
  - injection E as _ E. injection E' as _ E'.
    apply (f_equal xor_all) in E. apply (f_equal xor_all) in E'.
    change (L :: c :: p ++ [xor_all (L :: c :: p)])
      with ((L :: c :: p) ++ [xor_all (L :: c :: p)]) in E.
    change (L' :: c' :: p' ++ [xor_all (L' :: c' :: p')])
      with ((L' :: c' :: p') ++ [xor_all (L' :: c' :: p')]) in E'.
    rewrite xor_all_with_checksum in E, E'.
    rewrite xor_all_concat, xor_all_cons in E, E'.
    rewrite <- E' in E. apply lxor_cancel_l in E.
    rewrite (Z.lxor_comm x), (Z.lxor_comm y) in E.
    apply lxor_cancel_l in E. now apply Hxy.
Qed.

Lemma parse_packet_detects_byte_change_witness :
  parse_packet ([0xAA; 0x03; 0x01] ++ 0x10 :: [0x20; 0x32]) <> None /\
  0x10 <> 0x11 /\
  parse_packet ([0xAA; 0x03; 0x01] ++ 0x11 :: [0x20; 0x32]) = None.
Proof.
  assert (H1 : parse_packet ([0xAA; 0x03; 0x01] ++ 0x10 :: [0x20; 0x32]) <> None)
    by (vm_compute; discriminate).
  assert (H2 : 0x10 <> 0x11) by discriminate.
  split; [exact H1|]. split; [exact H2|].
  exact (parse_packet_detects_byte_change _ _ _ _ H1 H2).
Defined.

(** X9: [build_packet] raises (from a [bytearray] append) whenever the
    command is not a byte, some payload element is not a byte, or the
    payload has more than 254 elements, so that [len(payload) + 1] does not
    fit the length byte. *)
Theorem build_packet_raises cmd payload :
  ~ (is_byte cmd /\ Forall is_byte payload /\ len payload <= 254) ->
  build_packet cmd payload = None.
Proof.
  intros H. pose proof (len_nonneg payload) as H0.
  unfold build_packet, append, extend, obind. cbn [app].
  change (in_range SYNC) with true. cbv iota.
  destruct (in_range (len payload + 1)) eqn:El; [|reflexivity].
  destruct (in_range cmd) eqn:Ec; [|reflexivity].
  destruct (forallb in_range payload) eqn:Ep; [|reflexivity].
  exfalso. apply H.
  apply in_range_spec in El, Ec. unfold is_byte in El.
  split; [assumption|]. split; [|lia].
  apply Forall_forall. intros b Hb. apply in_range_spec.
  rewrite forallb_forall in Ep. now apply Ep.
Qed.

Lemma build_packet_raises_witness :
  ~ (is_byte 0x01 /\ Forall is_byte [0x100] /\ len [0x100] <= 254) /\
  build_packet 0x01 [0x100] = None.
Proof.
  assert (H : ~ (is_byte 0x01 /\ Forall is_byte [0x100] /\ len [0x100] <= 254)).
  { intros (_ & Hp & _). inversion Hp as [|? ? Hb _]. unfold is_byte in Hb. lia. }
  split; [exact H|].
  exact (build_packet_raises 0x01 [0x100] H).
Defined.

(** * The receiver together with the encoder and the parser *)

(** X10: every frame the receiver queues is accepted by [parse_packet]: in
    any reachable state, a queued frame [f] parses to its third byte as
    command and the bytes between that and the checksum as payload, and its
    length byte is exactly [len(payload) + 1], as [build_packet] writes
    it. *)
Theorem queued_frames_parse self f :
  reachable self -> In f (packets self) ->
  exists cmd payload,
    parse_packet f = Some (cmd, payload) /\
    f = SYNC :: len payload + 1 :: cmd :: payload
          ++ [xor_all (len payload + 1 :: cmd :: payload)].
Proof.
  intros Hr Hin.
  pose proof (reachable_inv _ Hr) as [Hwf _].
  pose proof (reachable_sized _ Hr) as [Hsz _].
  rewrite Forall_forall in Hwf, Hsz.
  specialize (Hwf _ Hin). specialize (Hsz _ Hin).
  apply well_formed_shape in Hwf. destruct Hwf as (H0 & (f1 & H1 & Hlen) & Hlast).
  destruct f as [|a [|L [|c [|e tail]]]];
    try (unfold len in Hsz; cbn in Hsz; lia).
  destruct (exists_last (l := e :: tail) ltac:(discriminate)) as (mid & last & E).
  rewrite E in *. clear E e tail.
  rewrite getitem_0 in H0. injection H0 as ->.
  rewrite getitem_1 in H1. injection H1 as <-.
  rewrite !len_cons, len_snoc in Hlen.
  replace (getitem (170 :: L :: c :: mid ++ [last]) (-1)) with (Some last) in Hlast
    by (symmetry; apply (getitem_last (170 :: L :: c :: mid) last)).
  replace (slice (170 :: L :: c :: mid ++ [last]) 1 (-1)) with (L :: c :: mid)
    in Hlast by (symmetry; apply (slice_1_m1 170 (L :: c :: mid) last)).
  injection Hlast as ->.
  assert (HL : L = len mid + 1) by lia. subst L.
  exists c, mid. split; [|reflexivity].
  apply parse_packet_accepts. lia.
Qed.

Lemma queued_frames_parse_witness :
  reachable (snd (feed_all [0xAA; 0x02; 0x01; 0x55; 0x56] init)) /\
  In [0xAA; 0x02; 0x01; 0x55; 0x56]
     (packets (snd (feed_all [0xAA; 0x02; 0x01; 0x55; 0x56] init))) /\
  exists cmd payload,
    parse_packet [0xAA; 0x02; 0x01; 0x55; 0x56] = Some (cmd, payload).
Proof.
  assert (Hr : reachable (snd (feed_all [0xAA; 0x02; 0x01; 0x55; 0x56] init))).
  { exact (reach_feed 0x56 _ (reach_feed 0x55 _ (reach_feed 0x01 _
             (reach_feed 0x02 _ (reach_feed 0xAA _ reach_init))))). }
  assert (Hin : In [0xAA; 0x02; 0x01; 0x55; 0x56]
     (packets (snd (feed_all [0xAA; 0x02; 0x01; 0x55; 0x56] init))))
    by (left; reflexivity).
  split; [exact Hr|]. split; [exact Hin|].
  destruct (queued_frames_parse _ _ Hr Hin) as (cmd & payload & Hp & _).
  exists cmd, payload. exact Hp.
Defined.

(** X11: what [build_packet] encodes survives the whole path: for a
    command byte and at most 254 payload bytes, the packet it returns, fed
    byte by byte to a fresh receiver after any noise free of [0xAA], is
    drained as the one and only frame, and [parse_packet] turns that frame
    back into the command and the payload. *)
Theorem build_receive_parse noise cmd payload :
  Forall (fun b => b <> SYNC) noise ->
  is_byte cmd -> Forall is_byte payload -> len payload <= 254 ->
  exists packet,
    build_packet cmd payload = Some packet /\
    fst (receive (noise ++ packet)) = Ok [packet] /\
    parse_packet packet = Some (cmd, payload).
Proof.
  intros Hn Hc Hp Hlen. pose proof (len_nonneg payload) as H0.
  exists (wire_frame (cmd :: payload)).
  split; [now apply build_packet_wire_frame|]. split.
  - erewrite receive_eq; cycle 1.
    { rewrite (feed_all_app _ _ _ _ (feed_all_noise noise init eq_refl Hn)).
      apply feed_all_wire_frame; [reflexivity | now constructor |].
      rewrite len_cons. lia. }
    reflexivity.
  - unfold wire_frame. rewrite len_cons.
    apply parse_packet_accepts. lia.
Qed.

Lemma build_receive_parse_witness :
  Forall (fun b => b <> SYNC) [0x00; 0xFF] /\
  is_byte 0x01 /\ Forall is_byte [0x10; 0x20] /\ len [0x10; 0x20] <= 254 /\
  exists packet,
    build_packet 0x01 [0x10; 0x20] = Some packet /\
    fst (receive ([0x00; 0xFF] ++ packet)) = Ok [packet] /\
    parse_packet packet = Some (0x01, [0x10; 0x20]).
Proof.
  assert (Hn : Forall (fun b => b <> SYNC) [0x00; 0xFF]).
  { repeat (apply Forall_cons; [discriminate|]). apply Forall_nil. }
  assert (Hc : is_byte 0x01) by (unfold is_byte; lia).
  assert (Hp : Forall is_byte [0x10; 0x20]).
  { repeat (apply Forall_cons; [unfold is_byte; lia|]). apply Forall_nil. }
  assert (Hl : len [0x10; 0x20] <= 254) by (cbn; lia).
  split; [exact Hn|]. split; [exact Hc|]. split; [exact Hp|]. split; [exact Hl|].
  exact (build_receive_parse _ _ _ Hn Hc Hp Hl).
Defined.

(** * SLIP encoding *)

Lemma slip_encode_loop_eq data : forall encoded,
  slip_encode_loop data encoded =
    if forallb in_range data then Some (encoded ++ escape data) else None.
Proof.
  induction data as [|b data IH]; intros encoded; cbn [slip_encode_loop forallb].
  - cbn. now rewrite app_nil_r.
  - unfold escape. cbn [flat_map]. fold (escape data). unfold escape_byte.
    destruct (Z.eqb_spec b END) as [->|]; [|destruct (Z.eqb_spec b ESC) as [->|]].
    + change (extend encoded [ESC; ESC_END]) with (Some (encoded ++ [ESC; ESC_END])).
      change (in_range END) with true.
      cbn [obind andb]. rewrite IH, <- app_assoc. reflexivity.
    + change (extend encoded [ESC; ESC_ESC]) with (Some (encoded ++ [ESC; ESC_ESC])).
      change (in_range ESC) with true.
      cbn [obind andb]. rewrite IH, <- app_assoc. reflexivity.
    + unfold append. destruct (in_range b); cbn [obind andb]; [|reflexivity].
      rewrite IH, <- app_assoc. reflexivity.
Qed.

Lemma slip_encode_eq data :
  slip_encode data =
    if forallb in_range data then Some (END :: escape data ++ [END]) else None.
Proof.
  unfold slip_encode.
  change (extend [] [END]) with (Some [END]). cbn [obind].
  rewrite slip_encode_loop_eq.
  destruct (forallb in_range data); cbn [obind]; [|reflexivity].
  unfold append. change (in_range END) with true. reflexivity.
Qed.

Lemma forallb_in_range_spec data : forallb in_range data = true <-> Forall is_byte data.
Proof.
  rewrite forallb_forall, Forall_forall.
  split; intros H b Hb; apply in_range_spec; auto.
Qed.

(** X12: [slip_encode] returns a frame for every sequence of bytes, and
    raises ([ValueError] from [bytearray.append]) as soon as one element is
    not a byte. *)
Theorem slip_encode_defined data :
  (exists encoded, slip_encode data = Some encoded) <-> Forall is_byte data.
Proof.
  rewrite slip_encode_eq, <- forallb_in_range_spec.
  destruct (forallb in_range data); split; eauto; try discriminate.
  intros [e He]. discriminate.
Qed.

Lemma escape_no_END data : ~ In END (escape data).
Proof.
  induction data as [|b data IH]; [intros []|].
  unfold escape. cbn [flat_map]. fold (escape data).
  intros H. apply in_app_or in H. destruct H as [H|H]; [|now apply IH].
  unfold escape_byte in H.
  destruct (Z.eqb_spec b END); [|destruct (Z.eqb_spec b ESC)]; cbn in H;
    repeat (destruct H as [H|H]; try discriminate H; try congruence).
Qed.

(** X13: the encoded frame is delimited without ambiguity: it starts with
    [END] (0xC0), ends with [END], and no byte in between is [END]. *)
Theorem slip_encode_delimited data encoded :
  slip_encode data = Some encoded ->
  exists body, encoded = END :: body ++ [END] /\ ~ In END body.
Proof.
  rewrite slip_encode_eq. destruct (forallb in_range data); [|discriminate].
  intros H. injection H as <-. exists (escape data).
  split; [reflexivity | apply escape_no_END].
Qed.

Lemma slip_encode_delimited_witness :
  slip_encode [0x01; 0xC0; 0x02; 0xDB; 0x03] =
    Some [0xC0; 0x01; 0xDB; 0xDC; 0x02; 0xDB; 0xDD; 0x03; 0xC0] /\
  exists body,
    [0xC0; 0x01; 0xDB; 0xDC; 0x02; 0xDB; 0xDD; 0x03; 0xC0] = END :: body ++ [END] /\
    ~ In END body.
Proof.
  assert (H : slip_encode [0x01; 0xC0; 0x02; 0xDB; 0x03] =
    Some [0xC0; 0x01; 0xDB; 0xDC; 0x02; 0xDB; 0xDD; 0x03; 0xC0]) by reflexivity.
  split; [exact H|].
  exact (slip_encode_delimited _ _ H).
Defined.

Lemma escape_byte_cases b :
  (b = END /\ escape_byte b = [ESC; ESC_END]) \/
  (b = ESC /\ escape_byte b = [ESC; ESC_ESC]) \/
  (b <> END /\ b <> ESC /\ escape_byte b = [b]).
Proof.
  unfold escape_byte.
  destruct (Z.eqb_spec b END); [auto|].
  destruct (Z.eqb_spec b ESC); auto.
Qed.

Lemma escape_cons x a : escape (x :: a) = escape_byte x ++ escape a.
Proof. reflexivity. Qed.

Lemma escape_injective a : forall b, escape a = escape b -> a = b.
Proof.
  induction a as [|x a IH]; intros [|y b]; rewrite ?escape_cons.
  - reflexivity.
  - destruct (escape_byte_cases y) as [[_ ->]|[[_ ->]|(_ & _ & ->)]]; discriminate.
  - destruct (escape_byte_cases x) as [[_ ->]|[[_ ->]|(_ & _ & ->)]]; discriminate.
  - destruct (escape_byte_cases x) as [[-> ->]|[[-> ->]|(Hx1 & Hx2 & ->)]];
    destruct (escape_byte_cases y) as [[-> ->]|[[-> ->]|(Hy1 & Hy2 & ->)]];
      cbn [app]; intros H; injection H as H; subst;
      try discriminate; try congruence;
      try (injection H as H; try discriminate); f_equal; now apply IH.
Qed.

(** X14: [slip_encode] loses nothing: two inputs with the same encoded
    frame are the same input. *)
Theorem slip_encode_injective a b encoded :
  slip_encode a = Some encoded -> slip_encode b = Some encoded -> a = b.
Proof.
  rewrite !slip_encode_eq.
  destruct (forallb in_range a); [|discriminate].
  destruct (forallb in_range b); [|discriminate].
  intros Ha Hb. rewrite <- Hb in Ha. injection Ha as Ha.
  apply app_inv_tail in Ha. now apply escape_injective.
Qed.

Lemma slip_encode_injective_witness :
  slip_encode [0xC0] = Some [0xC0; 0xDB; 0xDC; 0xC0] /\
  slip_encode ([] ++ [0xC0]) = Some [0xC0; 0xDB; 0xDC; 0xC0] /\
  [0xC0] = [] ++ [0xC0].
Proof.
  assert (Ha : slip_encode [0xC0] = Some [0xC0; 0xDB; 0xDC; 0xC0]) by reflexivity.
  assert (Hb : slip_encode ([] ++ [0xC0]) = Some [0xC0; 0xDB; 0xDC; 0xC0])
    by reflexivity.
  split; [exact Ha|]. split; [exact Hb|].
  exact (slip_encode_injective [0xC0] ([] ++ [0xC0]) _ Ha Hb).
Defined.

Lemma len_escape data :
  len (escape data) =
    len data + len (filter (fun b => (b =? END) || (b =? ESC)) data).
Proof.
  induction data as [|b data IH]; [reflexivity|].
  unfold escape. cbn [flat_map filter]. fold (escape data).
  rewrite len_app, len_cons, IH. unfold escape_byte.
  destruct (b =? END); [|destruct (b =? ESC)]; cbn [orb];
    rewrite ?len_cons; unfold len at 1; cbn [List.length]; lia.
Qed.

(** X15: the encoded frame has one byte per input byte, one more for each
    input byte equal to [END] or [ESC], and the two delimiters; so between
    [len(data) + 2] and [2 * len(data) + 2] bytes. *)
Theorem slip_encode_length data encoded :
  slip_encode data = Some encoded ->
  len encoded =
    len data + len (filter (fun b => (b =? END) || (b =? ESC)) data) + 2 /\
  len data + 2 <= len encoded <= 2 * len data + 2.
Proof.
  rewrite slip_encode_eq. destruct (forallb in_range data); [|discriminate].
  intros H. injection H as <-.
  rewrite len_cons, len_snoc, len_escape.
  pose proof (len_nonneg (filter (fun b => (b =? END) || (b =? ESC)) data)).
  assert (len (filter (fun b => (b =? END) || (b =? ESC)) data) <= len data).
  { unfold len. apply inj_le, filter_length_le. }
  lia.
Qed.

Lemma slip_encode_length_witness :
  slip_encode [0x01; 0xC0; 0x02; 0xDB; 0x03] =
    Some [0xC0; 0x01; 0xDB; 0xDC; 0x02; 0xDB; 0xDD; 0x03; 0xC0] /\
  len [0xC0; 0x01; 0xDB; 0xDC; 0x02; 0xDB; 0xDD; 0x03; 0xC0] =
    len [0x01; 0xC0; 0x02; 0xDB; 0x03] +
    len (filter (fun b => (b =? END) || (b =? ESC)) [0x01; 0xC0; 0x02; 0xDB; 0x03]) + 2.
Proof.
  assert (H : slip_encode [0x01; 0xC0; 0x02; 0xDB; 0x03] =
    Some [0xC0; 0x01; 0xDB; 0xDC; 0x02; 0xDB; 0xDD; 0x03; 0xC0]) by reflexivity.
  split; [exact H|].
  exact (proj1 (slip_encode_length _ _ H)).
Defined.

(** * Modbus CRC-16 *)

Lemma lxor_bound n a b :
  0 <= n -> 0 <= a < 2 ^ n -> 0 <= b < 2 ^ n -> 0 <= Z.lxor a b < 2 ^ n.
Proof.
  intros Hn Ha Hb.
  assert (H0 : 0 <= Z.lxor a b) by (apply Z.lxor_nonneg; lia).
  split; [exact H0|].
  destruct (Z.eq_dec (Z.lxor a b) 0) as [->|Hne]; [lia|].
  apply Z.log2_lt_pow2; [lia|].
  pose proof (Z.log2_lxor a b ltac:(lia) ltac:(lia)) as Hl.
  assert (Ha' : a = 0 \/ Z.log2 a < n).
  { destruct (Z.eq_dec a 0); [now left | right; apply Z.log2_lt_pow2; lia]. }
  assert (Hb' : b = 0 \/ Z.log2 b < n).
  { destruct (Z.eq_dec b 0); [now left | right; apply Z.log2_lt_pow2; lia]. }
  destruct Ha' as [->|Ha'], Hb' as [->|Hb'];
    rewrite ?Z.lxor_0_l, ?Z.lxor_0_r in *; try lia;
    try (apply Z.log2_lt_pow2; lia).
Qed.

Lemma crc_bit_range crc : is_crc crc -> is_crc (crc_bit crc).
Proof.
  unfold is_crc, crc_bit. intros H.
  assert (Hs : 0 <= Z.shiftr crc 1 < 32768).
  { rewrite Z.shiftr_div_pow2 by lia. change (2 ^ 1) with 2.
    split; [apply Z.div_pos; lia | apply Z.div_lt_upper_bound; lia]. }
  destruct (negb (Z.land crc 1 =? 0)); [|lia].
  apply (lxor_bound 16); lia.
Qed.

Lemma crc_byte_range crc byte : is_crc crc -> is_byte byte -> is_crc (crc_byte crc byte).
Proof.
  intros Hc Hb. unfold crc_byte.
  assert (H : is_crc (Z.lxor crc byte)).
  { unfold is_crc, is_byte in *. apply (lxor_bound 16); lia. }
  cbn [Nat.iter]. now repeat apply crc_bit_range.
Qed.

Lemma fold_crc_range data : forall crc,
  is_crc crc -> Forall is_byte data -> is_crc (fold_left crc_byte data crc).
Proof.
  induction data as [|b data IH]; intros crc Hc Hd; [exact Hc|].
  inversion Hd; subst. cbn [fold_left]. apply IH; [|assumption].
  now apply crc_byte_range.
Qed.

(** X16: for a sequence of bytes the CRC fits 16 bits. *)
Theorem modbus_crc16_range data :
  Forall is_byte data -> 0 <= modbus_crc16 data < 65536.
Proof. apply fold_crc_range. unfold is_crc. lia. Qed.

Lemma modbus_crc16_range_witness :
  Forall is_byte [0x01; 0x03; 0x00; 0x00; 0x00; 0x0A] /\
  0 <= modbus_crc16 [0x01; 0x03; 0x00; 0x00; 0x00; 0x0A] < 65536.
Proof.
  assert (H : Forall is_byte [0x01; 0x03; 0x00; 0x00; 0x00; 0x0A]).
  { repeat (apply Forall_cons; [unfold is_byte; lia|]). apply Forall_nil. }
  split; [exact H|].
  exact (modbus_crc16_range _ H).
Defined.

Lemma in_upto n : forall start x,
  start <= x < start + Z.of_nat n -> In x (upto n start).
Proof.
  induction n as [|n IH]; intros start x H; [lia|].
  cbn [upto]. destruct (Z.eq_dec start x); [now left | right].
  apply IH. lia.
Qed.

Lemma all_crc_complete crc : is_crc crc -> In crc all_crc.
Proof.
  intros H. unfold all_crc, is_crc in *. apply in_upto.
  rewrite Z2Nat.id; lia.
Qed.

Lemma for_all_crc (P : Z -> bool) :
  forallb P all_crc = true -> forall crc, is_crc crc -> P crc = true.
Proof.
  intros H crc Hc. rewrite forallb_forall in H. now apply H, all_crc_complete.
Qed.

(** Two more bytes, the register itself low byte first, clear the register. *)
Lemma crc_byte_own_bytes crc :
  is_crc crc ->
  crc_byte (crc_byte crc (Z.land crc 0xFF)) (Z.shiftr crc 8) = 0.
Proof.
  intros H. apply Z.eqb_eq. revert crc H.
  apply (for_all_crc
           (fun crc => crc_byte (crc_byte crc (Z.land crc 0xFF)) (Z.shiftr crc 8) =? 0)).
  vm_compute. reflexivity.
Qed.

(** [crc_bit] can be undone on 16-bit registers. *)
Lemma crc_unbit_bit crc : is_crc crc -> crc_unbit (crc_bit crc) = crc.
Proof.
  intros H. apply Z.eqb_eq. revert crc H.
  apply (for_all_crc (fun crc => crc_unbit (crc_bit crc) =? crc)).
  vm_compute. reflexivity.
Qed.

Lemma modbus_crc16_range_aux data :
  Forall is_byte data -> is_crc (modbus_crc16 data).
Proof. apply fold_crc_range. unfold is_crc. lia. Qed.

Lemma crc_low_high crc :
  is_crc crc -> is_byte (Z.land crc 0xFF) /\ is_byte (Z.shiftr crc 8).
Proof.
  unfold is_crc, is_byte. intros H. split.
  - change 255 with (Z.ones 8). rewrite Z.land_ones by lia.
    apply Z.mod_pos_bound. lia.
  - rewrite Z.shiftr_div_pow2 by lia. change (2 ^ 8) with 256.
    split; [apply Z.div_pos; lia | apply Z.div_lt_upper_bound; lia].
Qed.

(** X17: the receiver's check.  When the CRC of a sequence of bytes is
    appended to it, low byte first, the CRC of the whole is 0. *)
Theorem modbus_crc16_residue data :
  Forall is_byte data ->
  modbus_crc16
    (data ++ [Z.land (modbus_crc16 data) 0xFF; Z.shiftr (modbus_crc16 data) 8]) = 0.
Proof.
  intros H. unfold modbus_crc16 at 1. rewrite fold_left_app.
  fold (modbus_crc16 data). cbn [fold_left].
  apply crc_byte_own_bytes. apply (modbus_crc16_range_aux data H).
Qed.

Lemma modbus_crc16_residue_witness :
  Forall is_byte [0x01; 0x03; 0x00; 0x00; 0x00; 0x0A] /\
  modbus_crc16 [0x01; 0x03; 0x00; 0x00; 0x00; 0x0A] = 0xCDC5 /\
  modbus_crc16
    ([0x01; 0x03; 0x00; 0x00; 0x00; 0x0A] ++
     [Z.land (modbus_crc16 [0x01; 0x03; 0x00; 0x00; 0x00; 0x0A]) 0xFF;
      Z.shiftr (modbus_crc16 [0x01; 0x03; 0x00; 0x00; 0x00; 0x0A]) 8]) = 0.
Proof.
  assert (H : Forall is_byte [0x01; 0x03; 0x00; 0x00; 0x00; 0x0A]).
  { repeat (apply Forall_cons; [unfold is_byte; lia|]). apply Forall_nil. }
  split; [exact H|]. split; [reflexivity|].
  exact (modbus_crc16_residue _ H).
Defined.

Lemma iter_crc_bit_range n : forall crc,
  is_crc crc -> is_crc (Nat.iter n crc_bit crc).
Proof.
  induction n as [|n IH]; intros crc H; cbn [Nat.iter]; [exact H|].
  now apply crc_bit_range, IH.
Qed.

Lemma crc_bit_injective a b :
  is_crc a -> is_crc b -> crc_bit a = crc_bit b -> a = b.
Proof.
  intros Ha Hb H. rewrite <- (crc_unbit_bit a Ha), <- (crc_unbit_bit b Hb).
  now rewrite H.
Qed.

Lemma iter_crc_bit_injective n : forall a b,
  is_crc a -> is_crc b ->
  Nat.iter n crc_bit a = Nat.iter n crc_bit b -> a = b.
Proof.
  induction n as [|n IH]; intros a b Ha Hb H; cbn [Nat.iter] in H; [exact H|].
  apply IH; try assumption.
  apply crc_bit_injective; auto using iter_crc_bit_range.
Qed.

Lemma lxor_crc_byte crc byte : is_crc crc -> is_byte byte -> is_crc (Z.lxor crc byte).
Proof. unfold is_crc, is_byte. intros. apply (lxor_bound 16); lia. Qed.

Lemma lxor_cancel_r k x y : Z.lxor x k = Z.lxor y k -> x = y.
Proof. rewrite !(Z.lxor_comm _ k). apply lxor_cancel_l. Qed.

Lemma crc_byte_injective_state a b byte :
  is_crc a -> is_crc b -> is_byte byte ->
  crc_byte a byte = crc_byte b byte -> a = b.
Proof.
  intros Ha Hb Hx H. unfold crc_byte in H.
  apply iter_crc_bit_injective in H; auto using lxor_crc_byte.
  now apply lxor_cancel_r in H.
Qed.

Lemma crc_byte_injective_byte crc x y :
  is_crc crc -> is_byte x -> is_byte y ->
  crc_byte crc x = crc_byte crc y -> x = y.
Proof.
  intros Hc Hx Hy H. unfold crc_byte in H.
  apply iter_crc_bit_injective in H; auto using lxor_crc_byte.
  now apply lxor_cancel_l in H.
Qed.

Lemma fold_crc_injective data : forall a b,
  Forall is_byte data -> is_crc a -> is_crc b ->
  fold_left crc_byte data a = fold_left crc_byte data b -> a = b.
Proof.
  induction data as [|x data IH]; intros a b Hd Ha Hb H; [exact H|].
  inversion Hd; subst. cbn [fold_left] in H.
  apply IH in H; auto using crc_byte_range.
  now apply crc_byte_injective_state in H.
Qed.

(** X18: the CRC catches every change of a single byte: two sequences of
    bytes that differ in exactly one position have different CRCs. *)
Theorem modbus_crc16_detects_byte_change a x y b :
  Forall is_byte a -> is_byte x -> is_byte y -> Forall is_byte b ->
  x <> y ->
  modbus_crc16 (a ++ x :: b) <> modbus_crc16 (a ++ y :: b).
Proof.
  intros Ha Hx Hy Hb Hxy H. apply Hxy.
  unfold modbus_crc16 in H. rewrite !fold_left_app in H. cbn [fold_left] in H.
  assert (Hc : is_crc (fold_left crc_byte a 65535))
    by (apply fold_crc_range; [unfold is_crc; lia | assumption]).
  apply fold_crc_injective in H; auto using crc_byte_range.
  now apply crc_byte_injective_byte in H.
Qed.

Lemma modbus_crc16_detects_byte_change_witness :
  Forall is_byte [0x01; 0x03] /\ is_byte 0x00 /\ is_byte 0x80 /\
  Forall is_byte [0x00; 0x00; 0x0A] /\ 0x00 <> 0x80 /\
  modbus_crc16 ([0x01; 0x03] ++ 0x00 :: [0x00; 0x00; 0x0A]) <>
  modbus_crc16 ([0x01; 0x03] ++ 0x80 :: [0x00; 0x00; 0x0A]).
Proof.
  assert (Ha : Forall is_byte [0x01; 0x03]).
  { repeat (apply Forall_cons; [unfold is_byte; lia|]). apply Forall_nil. }
  assert (Hx : is_byte 0x00) by (unfold is_byte; lia).
  assert (Hy : is_byte 0x80) by (unfold is_byte; lia).
  assert (Hb : Forall is_byte [0x00; 0x00; 0x0A]).
  { repeat (apply Forall_cons; [unfold is_byte; lia|]). apply Forall_nil. }
  assert (Hxy : 0x00 <> 0x80) by discriminate.
  split; [exact Ha|]. split; [exact Hx|]. split; [exact Hy|].
  split; [exact Hb|]. split; [exact Hxy|].
  exact (modbus_crc16_detects_byte_change _ _ _ _ Ha Hx Hy Hb Hxy).
Defined.

(** * The mock serial port *)

Lemma clamp_range n i : 0 <= n -> 0 <= clamp n i <= n.
Proof. unfold clamp. destruct (i <? 0); lia. Qed.

Lemma slice_to_from {A} (l : list A) n : slice_to l n ++ slice_from l n = l.
Proof. unfold slice_to, slice_from. apply firstn_skipn. Qed.

Lemma len_slice_to {A} (l : list A) n : len (slice_to l n) = clamp (len l) n.
Proof.
  unfold slice_to. pose proof (clamp_range (len l) n (len_nonneg l)) as H.
  unfold len in *. rewrite length_firstn. lia.
Qed.

(** X19: [read(size)] never loses or repeats a byte, whatever integer
    [size] is: the bytes returned followed by the bytes left in the buffer
    are the buffer as it was.  It returns [min(size, in_waiting)] bytes for
    [size >= 0], and all but the last [-size] bytes for [size < 0]. *)
Theorem mock_read_conserves size ser :
  fst (MockSerial.read size ser) ++ MockSerial._rx_buffer (snd (MockSerial.read size ser))
    = MockSerial._rx_buffer ser /\
  len (fst (MockSerial.read size ser)) =
    Z.max 0 (Z.min (MockSerial.in_waiting ser)
                   (if size <? 0 then size + MockSerial.in_waiting ser else size)).
Proof.
  unfold MockSerial.read, MockSerial.in_waiting. cbn [fst snd MockSerial._rx_buffer].
  split; [apply slice_to_from | apply len_slice_to].
Qed.

(** Where the first newline of a buffer is. *)
Lemma first_newline buf :
  (exists body rest,
     buf = body ++ MockSerial.LF :: rest /\ ~ In MockSerial.LF body /\
     contains [MockSerial.LF] buf = true /\
     bytes_index [MockSerial.LF] buf = Some (len body)) \/
  (~ In MockSerial.LF buf /\ contains [MockSerial.LF] buf = false).
Proof.
  induction buf as [|x buf IH].
  - right. split; [intros [] | reflexivity].
  - cbn [contains bytes_index starts_with]. rewrite andb_true_r.
    destruct (Z.eqb_spec MockSerial.LF x) as [<-|Hne].
    + left. exists [], buf. cbn. auto.
    + cbn [orb]. destruct IH as [(body & rest & -> & Hb & Hc & Hi) | [Hn Hc]].
      * left. exists (x :: body), rest. rewrite Hc, Hi. cbn [option_map app].
        repeat split; [|now rewrite len_cons].
        intros [H|H]; [congruence | contradiction].
      * right. split; [|exact Hc]. intros [H|H]; [congruence | contradiction].
Qed.

Lemma slice_to_prefix {A} (pre rest : list A) :
  slice_to (pre ++ rest) (len pre) = pre /\ slice_from (pre ++ rest) (len pre) = rest.
Proof.
  unfold slice_to, slice_from, clamp. rewrite len_app.
  pose proof (len_nonneg pre). pose proof (len_nonneg rest).
  destruct (Z.ltb_spec (len pre) 0); [lia|].
  replace (Z.max 0 (Z.min (len pre + len rest) (len pre))) with (len pre) by lia.
  unfold len. rewrite Nat2Z.id. split.
  - rewrite firstn_app, firstn_all, Nat.sub_diag. cbn. apply app_nil_r.
  - rewrite skipn_app, skipn_all, Nat.sub_diag. reflexivity.
Qed.

Lemma mock_readline_eq ser :
  (exists body rest,
     MockSerial._rx_buffer ser = body ++ MockSerial.LF :: rest /\
     ~ In MockSerial.LF body /\
     MockSerial.readline ser =
       (body ++ [MockSerial.LF],
        MockSerial.mk rest (MockSerial._is_open ser))) \/
  (~ In MockSerial.LF (MockSerial._rx_buffer ser) /\
   MockSerial.readline ser =
     (MockSerial._rx_buffer ser, MockSerial.mk [] (MockSerial._is_open ser))).
Proof.
  unfold MockSerial.readline.
  destruct (first_newline (MockSerial._rx_buffer ser))
    as [(body & rest & E & Hb & Hc & Hi) | [Hn Hc]].
  - left. exists body, rest. split; [exact E|]. split; [exact Hb|].
    rewrite Hc, Hi, E.
    change (body ++ MockSerial.LF :: rest) with (body ++ [MockSerial.LF] ++ rest).
    rewrite app_assoc.
    replace (len body + 1) with (len (body ++ [MockSerial.LF]))
      by apply len_snoc.
    destruct (slice_to_prefix (body ++ [MockSerial.LF]) rest) as [-> ->].
    reflexivity.
  - right. split; [exact Hn|]. now rewrite Hc.
Qed.

Lemma mock_readline_conserves ser :
  fst (MockSerial.readline ser) ++ MockSerial._rx_buffer (snd (MockSerial.readline ser))
    = MockSerial._rx_buffer ser.
Proof.
  destruct (mock_readline_eq ser) as [(body & rest & E & Hb & ->) | [Hn ->]];
    cbn [fst snd MockSerial._rx_buffer].
  - now rewrite E, <- app_assoc.
  - apply app_nil_r.
Qed.

(** X20: [readline()] cuts the buffer after its first newline: the line
    returned followed by what stays in the buffer is the buffer as it was;
    when the buffer holds a newline, the line ends with it and has no other;
    when it holds none, the whole buffer is returned and nothing stays (on
    an empty buffer: the empty line). *)
Theorem mock_readline_first_line ser :
  fst (MockSerial.readline ser) ++ MockSerial._rx_buffer (snd (MockSerial.readline ser))
    = MockSerial._rx_buffer ser /\
  (In MockSerial.LF (MockSerial._rx_buffer ser) ->
     exists body,
       fst (MockSerial.readline ser) = body ++ [MockSerial.LF] /\
       ~ In MockSerial.LF body) /\
  (~ In MockSerial.LF (MockSerial._rx_buffer ser) ->
     fst (MockSerial.readline ser) = MockSerial._rx_buffer ser /\
     MockSerial._rx_buffer (snd (MockSerial.readline ser)) = []).
Proof.
  destruct (mock_readline_eq ser) as [(body & rest & E & Hb & ->) | [Hn ->]];
    cbn [fst snd MockSerial._rx_buffer].
  - split; [now rewrite E, <- app_assoc|]. split.
    + intros _. now exists body.
    + intros Hn. exfalso. apply Hn. rewrite E. apply in_elt.
  - split; [apply app_nil_r|]. split; [contradiction | auto].
Qed.

Lemma mock_readline_shrinks ser :
  0 < MockSerial.in_waiting ser ->
  fst (MockSerial.readline ser) <> [] /\
  MockSerial.in_waiting (snd (MockSerial.readline ser)) < MockSerial.in_waiting ser.
Proof.
  unfold MockSerial.in_waiting. intros Hpos.
  destruct (mock_readline_eq ser) as [(body & rest & E & Hb & ->) | [Hn ->]];
    cbn [fst snd MockSerial._rx_buffer].
  - split; [intros H; now apply app_eq_nil in H as [_ H]|].
    rewrite E, len_app, len_cons. pose proof (len_nonneg body). lia.
  - split; [|exact Hpos]. intros H. rewrite H in Hpos. cbn in Hpos. lia.
Qed.

(** X21: polling [readline()] while [in_waiting > 0] splits the buffer
    into lines without losing a byte: the lines read, put end to end and
    followed by what is still buffered, are the buffer as it was; no line is
    empty; and as many calls as there are bytes waiting always empty the
    buffer. *)
Theorem mock_read_lines n : forall ser,
  concat (fst (read_lines n ser)) ++ MockSerial._rx_buffer (snd (read_lines n ser))
    = MockSerial._rx_buffer ser /\
  Forall (fun line => line <> []) (fst (read_lines n ser)) /\
  (MockSerial.in_waiting ser <= Z.of_nat n ->
   MockSerial._rx_buffer (snd (read_lines n ser)) = []).
Proof.
  induction n as [|n IH]; intros ser.
  - cbn [read_lines fst snd concat app]. split; [reflexivity|].
    split; [constructor|]. unfold MockSerial.in_waiting. intros H.
    destruct (MockSerial._rx_buffer ser); [reflexivity|].
    rewrite len_cons in H. pose proof (len_nonneg l). lia.
  - cbn [read_lines].
    destruct (Z.ltb_spec 0 (MockSerial.in_waiting ser)) as [Hpos|Hzero].
    + destruct (mock_readline_shrinks ser Hpos) as [Hne Hlt].
      pose proof (mock_readline_conserves ser) as Hcat.
      destruct (MockSerial.readline ser) as [line ser1]. cbn [fst snd] in *.
      destruct (IH ser1) as (Hcat1 & Hall & Hempty).
      destruct (read_lines n ser1) as [lines ser2]. cbn [fst snd concat] in *.
      split; [now rewrite <- app_assoc, Hcat1|].
      split; [now constructor|].
      intros Hn. apply Hempty. lia.
    + cbn [fst snd concat app]. split; [reflexivity|]. split; [constructor|].
      intros _. unfold MockSerial.in_waiting in Hzero.
      destruct (MockSerial._rx_buffer ser); [reflexivity|].
      rewrite len_cons in Hzero. pose proof (len_nonneg l). lia.
Qed.

(** X22: [write(data)] returns [len(data)] and replaces whatever was still
    unread by its canned response, which is made of complete lines: polling
    [readline()] afterwards gives one or two lines, each ending in CR LF,
    and leaves the buffer empty. *)
Theorem mock_write_response data ser :
  fst (MockSerial.write data ser) = len data /\
  snd (MockSerial.write data ser) =
    snd (MockSerial.write data (MockSerial.mk [] (MockSerial._is_open ser))) /\
  fst (read_lines 2 (snd (MockSerial.write data ser))) <> [] /\
  Forall (fun line => exists body, line = body ++ [MockSerial.CR; MockSerial.LF])
         (fst (read_lines 2 (snd (MockSerial.write data ser)))) /\
  MockSerial._rx_buffer (snd (read_lines 2 (snd (MockSerial.write data ser)))) = [].
Proof.
  split; [reflexivity|]. split; [reflexivity|].
  unfold MockSerial.write. cbn [snd].
  destruct (contains _ data);
    [|destruct (contains _ data);
      [|destruct (contains _ data); [|destruct (contains _ data)]]];
    (split; [discriminate|]); (split; [|reflexivity]).
  all: repeat (constructor;
                [match goal with
                 | |- exists body, ?line = _ =>
                     exists (removelast (removelast line)); reflexivity
                 end|]);
       constructor.
Qed.
